(** * sacura: the state manager of the event-delivery test harness

    A shallow embedding of [state.go] (package [sacura]) and the properties
    of its ledger, its deduplicator, its diff and its report.

    Conventions of the embedding.
    - A Go [string] is a [string]; Go compares strings bytewise, which is
      [String.compare].
    - A Go [map[string]T] is a [gmap string T]; a Go [map[string]struct{}]
      used as a set is a [gset string].
    - A slice stored in a ledger is a [list string]: [insert] creates every
      ledger entry with [make], so a ledger never holds a nil slice.  A local
      slice variable that may still be nil ([var received []string]) is an
      [option (list string)], [None] being nil.
    - Go's [int] counters are sums of lengths of slices that are alive at the
      same time, far below the range of [int]; they are modelled in [Z].
    - [for k, v := range m] visits the keys of [m] in an unspecified order:
      the loops take the order of the visit as a list of keys. *)

From stdpp Require Import gmap strings list sorting.
From Stdlib Require Import ZArith Lia.
From Stdlib Require OrderedTypeEx.

Set Warnings "-clear-no-such-hyp".

Open Scope string_scope.
Open Scope list_scope.
Open Scope stdpp_scope.

(** ** Strings in Go's order *)

Definition string_le (a b : string) : Prop := String.leb a b = true.
Definition string_lt (a b : string) : Prop := String.ltb a b = true.

#[global] Instance string_le_dec a b : Decision (string_le a b).
Proof. unfold string_le. apply _. Defined.

#[global] Instance string_lt_dec a b : Decision (string_lt a b).
Proof. unfold string_lt. apply _. Defined.

(** [sort.Strings] sorts a slice in increasing order, in place.  The function
    below gives the contents of the slice after the call; the callers write
    it back to where the slice lives. *)
Definition sort_Strings (l : list string) : list string :=
  merge_sort string_le l.

(** ** The deduplicator *)

(** One turn of the loop of [removeDuplicates]: [t] is the set of the IDs seen
    so far. *)
Definition removeDuplicates_step
    (acc : gset string * list string * list string) (v : string)
    : gset string * list string * list string :=
  let '(t, result, duplicates) := acc in
  if decide (v ∈ t)
  then ({[ v ]} ∪ t, result, duplicates ++ [v])
  else ({[ v ]} ∪ t, result ++ [v], duplicates).

Definition removeDuplicates (a : list string) : list string * list string :=
  let '(_, result, duplicates) := foldl removeDuplicates_step (∅, [], []) a in
  (result, duplicates).

(** The contract of the deduplicator, in the words of its description: the
    entries of [a] that have no earlier occurrence, and those that have one,
    each in the order of [a]. *)
Definition first_occurrences (a : list string) : list string :=
  omap id (imap (λ i x, if decide (x ∈ take i a) then None else Some x) a).

Definition repeat_occurrences (a : list string) : list string :=
  omap id (imap (λ i x, if decide (x ∈ take i a) then Some x else None) a).

(** Number of occurrences of [x] in [l]. *)
Definition occurrences (x : string) (l : list string) : nat :=
  length (filter (λ y, y = x) l).

(** ** String sets of [k8s.io/apimachinery/pkg/util/sets]

    [sets.String] is a set of strings; [List] returns its contents as a
    sorted slice (the library sorts with [sort.Sort] on a fresh slice). *)
Module sets.
Definition NewString (items : list string) : gset string :=
  list_to_set items.
Definition Difference (s1 s2 : gset string) : gset string := s1 ∖ s2.
Definition List (s : gset string) : list string :=
  sort_Strings (elements s).
End sets.

(** ** Slices that may be nil *)

Definition len {A} (l : list A) : Z := Z.of_nat (length l).

(** [len] of a local slice variable; the length of nil is 0. *)
Definition len_slice (o : option (list string)) : Z := from_option len 0%Z o.

(** [sort.Strings] on a local slice variable; sorting nil does nothing. *)
Definition sort_slice (o : option (list string)) : option (list string) :=
  sort_Strings <$> o.

(** ** Events *)

(** The value of an extension attribute of a CloudEvent, an [interface{}]
    in Go: only the string case is told apart by [insert]. *)
Inductive ext_value : Type :=
  | ExtString (s : string)
  | ExtInt32 (n : Z)
  | ExtBool (b : bool)
  | ExtBinary (bs : list Ascii.ascii).

Record Event : Type := {
  ID : string;
  Extensions : gmap string ext_value
}.

(** ** Configuration *)

(** [StateManagerConfig] also embeds an [OrderedConfig]; nothing in
    [state.go] reads it. *)
Record StateManagerConfig : Type := { Ordered : bool }.

Definition unknownPartitionKey : string := "unknown".

(** ** Insertion into a ledger *)

(** The type assertion [v.(string)] panics on a value that is not a string:
    [None] is the panic. *)
Definition assert_string (v : ext_value) : option string :=
  match v with
  | ExtString s => Some s
  | _ => None
  end.

(** The partition key computed at the head of [insert]. *)
Definition partitionKey (e : Event) (config : StateManagerConfig)
    : option string :=
  if Ordered config then
    match Extensions e !! "partitionkey" with
    | Some v => assert_string v
    | None => Some unknownPartitionKey
    end
  else Some unknownPartitionKey.

(** The first assignment of [insert]: the entry of [pk] is created, empty,
    when the key is absent. *)
Definition insert_create (pk : string) (store : gmap string (list string))
    : gmap string (list string) :=
  match store !! pk with
  | Some _ => store
  | None => <[pk := []]> store
  end.

(** The second assignment of [insert]: the ID is appended to the entry. *)
Definition insert_append (pk : string) (id : string)
    (store : gmap string (list string)) : gmap string (list string) :=
  <[pk := (store !!! pk) ++ [id]]> store.

Definition insert (e : Event) (store : gmap string (list string))
    (config : StateManagerConfig) : option (gmap string (list string)) :=
  pk ← partitionKey e config;
  Some (insert_append pk (ID e) (insert_create pk store)).

(** ** The report *)

(** The type [Report] is declared outside [state.go]; these are the fields
    that [GenerateReport] fills. *)
Module Report.
Record t (M : Type) : Type := mk {
  LostCount : Z;
  DuplicateCount : Z;
  ReceivedCount : Z;
  Metrics : M;
  LostEventsByPartitionKey : gmap string (list string);
  DuplicateEventsByPartitionKey : gmap string (option (list string));
  ReceivedEventsByPartitionKey : gmap string (list string);
  Terminated : bool
}.
Arguments mk {M}.
Arguments LostCount {M}.
Arguments DuplicateCount {M}.
Arguments ReceivedCount {M}.
Arguments Metrics {M}.
Arguments LostEventsByPartitionKey {M}.
Arguments DuplicateEventsByPartitionKey {M}.
Arguments ReceivedEventsByPartitionKey {M}.
Arguments Terminated {M}.
End Report.

(** The keys of a map in the order of [map_to_list]: one of the orders in
    which [range] may visit it. *)
Definition keys {V} (m : gmap string V) : list string := (map_to_list m).*1.

(** [ks] is an order in which [range] may visit [m]: every key once. *)
Definition range_order {V} (m : gmap string V) (ks : list string) : Prop :=
  ks ≡ₚ keys m.

Definition newline : string := String (Ascii.ascii_of_nat 10) "".

(** ** The state manager *)

Section Manager.

(** The type [Metrics] is declared outside [state.go] and is passed through
    untouched. *)
Context {Metrics : Type}.

(** [cmp.Diff] of [github.com/google/go-cmp/cmp], on two slices of strings
    that may be nil.  Its text is not fixed by the library; its
    documentation fixes when the text is empty (see [cmp_Diff_empty]
    below). *)
Variable cmp_Diff : option (list string) → option (list string) → string.

(** The fields of [StateManager] but the lock, which does nothing in a
    sequential run. *)
Record StateManager : Type := mkStateManager {
  received : gmap string (list string);
  sent : gmap string (list string);
  config : StateManagerConfig;
  terminated : bool;
  metrics : Metrics
}.

Definition with_sent (f : gmap string (list string) → gmap string (list string))
    (s : StateManager) : StateManager :=
  mkStateManager (received s) (f (sent s)) (config s) (terminated s)
    (metrics s).

Definition with_received
    (f : gmap string (list string) → gmap string (list string))
    (s : StateManager) : StateManager :=
  mkStateManager (f (received s)) (sent s) (config s) (terminated s)
    (metrics s).

(** [zero] is the zero value of [Metrics], which the fields left out of the
    composite literal take. *)
Definition NewStateManager (zero : Metrics) (config : StateManagerConfig)
    : StateManager :=
  mkStateManager ∅ ∅ config false zero.

(** The body of the loop of [ReadSent], for one event. *)
Definition recordSent (e : Event) (s : StateManager) : option StateManager :=
  store ← insert e (sent s) (config s);
  Some (with_sent (λ _, store) s).

(** The body of the loop of [ReadReceived], for one event. *)
Definition recordReceived (e : Event) (s : StateManager)
    : option StateManager :=
  store ← insert e (received s) (config s);
  Some (with_received (λ _, store) s).

(** [ReadSent] and [ReadReceived] on the events that their channel
    delivers, one after the other; a panic ends the run. *)
Definition ReadSent (events : list Event) (s : StateManager)
    : option StateManager :=
  foldl (λ acc e, acc ≫= recordSent e) (Some s) events.

Definition ReadReceived (events : list Event) (s : StateManager)
    : option StateManager :=
  foldl (λ acc e, acc ≫= recordReceived e) (Some s) events.

Definition ReceivedCount_in (ks : list string) (s : StateManager) : Z :=
  foldl (λ count k, (count + len (received s !!! k))%Z) 0%Z ks.

Definition ReceivedCount (s : StateManager) : Z :=
  ReceivedCount_in (keys (received s)) s.

(** [sort.Strings(sent)] where [sent := v] and [v] is the entry of [k] in
    the sent ledger: the slice shares its array with the ledger, so the
    entry of the ledger is sorted. *)
Definition sort_sent_entry (k : string) (s : StateManager) : StateManager :=
  with_sent (λ m, <[k := sort_Strings (m !!! k)]> m) s.

(** [fmt.Sprintf("partitionkey: '%s' (-want, +got)\n%s", k, diff)] *)
Definition partition_header (k diff : string) : string :=
  "partitionkey: '" +:+ k +:+ "' (-want, +got)" +:+ newline +:+ diff.

(** One turn of the loop of [Diff], at key [k]. *)
Definition Diff_body (acc : StateManager * bool * string) (k : string)
    : StateManager * bool * string :=
  let '(s, hasDiff, fullDiff) := acc in
  let received := (λ v, (removeDuplicates v).1) <$> received s !! k in
  let s' := if Ordered (config s) then s else sort_sent_entry k s in
  let received := if Ordered (config s) then received
                  else sort_slice received in
  let sent := sent s' !!! k in
  let diff := cmp_Diff received (Some sent) in
  (s',
   if decide (diff ≠ "") then true else hasDiff,
   fullDiff +:+ partition_header k diff).

(** [Diff] when [range] visits the sent ledger in the order [ks]: the
    manager after the call, and the string returned. *)
Definition Diff_in (ks : list string) (s : StateManager)
    : StateManager * string :=
  let '(s', hasDiff, fullDiff) :=
    foldl Diff_body (s, false, "Diff by partition key" +:+ newline) ks in
  (s', if hasDiff then fullDiff else "").

Definition Diff (s : StateManager) : StateManager * string :=
  Diff_in (keys (sent s)) s.

(** One turn of the loop of [GenerateReport], at key [k].  The variable [v]
    of the [if] statement is local to it: after the [if], [v] is again the
    variable of the [range] clause, the entry of the sent ledger. *)
Definition GenerateReport_body (acc : StateManager * Report.t Metrics)
    (k : string) : StateManager * Report.t Metrics :=
  let '(s, r) := acc in
  let entry := received s !! k in
  let received := (λ v, (removeDuplicates v).1) <$> entry in
  let duplicates := (λ v, (removeDuplicates v).2) <$> entry in
  let s' := if Ordered (config s) then s else sort_sent_entry k s in
  let received := if Ordered (config s) then received
                  else sort_slice received in
  let duplicates := if Ordered (config s) then duplicates
                    else sort_slice duplicates in
  let sent := sent s' !!! k in
  let v := sent in
  let diff := sets.Difference (sets.NewString sent)
                (sets.NewString (default [] received)) in
  let lost := sets.List diff in
  (s',
   Report.mk
     (Report.LostCount r + len lost)
     (Report.DuplicateCount r + len_slice duplicates)
     (Report.ReceivedCount r + len v)
     (Report.Metrics r)
     (<[k := lost]> (Report.LostEventsByPartitionKey r))
     (<[k := duplicates]> (Report.DuplicateEventsByPartitionKey r))
     (<[k := v]> (Report.ReceivedEventsByPartitionKey r))
     (Report.Terminated r)).

(** [GenerateReport] when [range] visits the sent ledger in the order [ks]:
    the manager after the call, and the report. *)
Definition GenerateReport_in (ks : list string) (s : StateManager)
    : StateManager * Report.t Metrics :=
  foldl GenerateReport_body
    (s, Report.mk 0 0 0 (metrics s) ∅ ∅ ∅ (terminated s)) ks.

Definition GenerateReport (s : StateManager)
    : StateManager * Report.t Metrics :=
  GenerateReport_in (keys (sent s)) s.

Definition Terminated (m : Metrics) (s : StateManager) : StateManager :=
  mkStateManager (received s) (sent s) (config s) true m.

(** *** What the loops compute at one key

    The slices that a turn of the loops of [Diff] and [GenerateReport]
    works on at key [k], read off the manager [s] before the call. *)

(** The slice after [sort.Strings] in unordered mode, untouched in ordered
    mode. *)
Definition normalize (config : StateManagerConfig) (l : list string)
    : list string :=
  if Ordered config then l else sort_Strings l.

Definition sent_view (s : StateManager) (k : string) : list string :=
  normalize (config s) (sent s !!! k).

Definition clean_received (s : StateManager) (k : string)
    : option (list string) :=
  (λ v, normalize (config s) (removeDuplicates v).1) <$> received s !! k.

Definition duplicates_view (s : StateManager) (k : string)
    : option (list string) :=
  (λ v, normalize (config s) (removeDuplicates v).2) <$> received s !! k.

Definition lost_view (s : StateManager) (k : string) : list string :=
  sets.List
    (sets.Difference (sets.NewString (sent_view s k))
       (sets.NewString (default [] (clean_received s k)))).

(** The text that [cmp.Diff] gives at key [k] in the loop of [Diff]. *)
Definition diff_at (s : StateManager) (k : string) : string :=
  cmp_Diff (clean_received s k) (Some (sent_view s k)).

(** Sum of [f] over the keys [ks]. *)
Definition sum_over (f : string → Z) (ks : list string) : Z :=
  foldr (λ k acc, (f k + acc)%Z) 0%Z ks.

(** *** Keys that only the received ledger has *)

(** The manager without the entries of the received ledger whose key was
    never sent. *)
Definition drop_received_only (s : StateManager) : StateManager :=
  with_received (filter (λ kv, is_Some (sent s !! kv.1))) s.

(** The entries of the received ledger whose key was never sent. *)
Definition received_only (s : StateManager) : gmap string (list string) :=
  filter (λ kv, ¬ is_Some (sent s !! kv.1)) (received s).

(** *** The outcome of an insertion *)

(** [store'] is [store] with [id] appended to the sequence of [pk], which
    starts empty when [store] has no entry for [pk]; the other entries are
    as in [store]. *)
Definition appended_under (pk id : string)
    (store store' : gmap string (list string)) : Prop :=
  store' !! pk = Some (default [] (store !! pk) ++ [id])
  ∧ ∀ k, k ≠ pk → store' !! k = store !! k.

(** [recordSent] and [recordReceived] of [e] on [s] append the ID of [e]
    under the key [pk], each to its own ledger and to nothing else; with
    no key, both panic. *)
Definition recorded (e : Event) (s : StateManager) (pk : option string)
    : Prop :=
  match pk with
  | Some pk =>
      (∃ s', recordSent e s = Some s'
             ∧ appended_under pk (ID e) (sent s) (sent s')
             ∧ received s' = received s)
      ∧ (∃ s', recordReceived e s = Some s'
               ∧ appended_under pk (ID e) (received s) (received s')
               ∧ sent s' = sent s)
  | None => recordSent e s = None ∧ recordReceived e s = None
  end.

(** *** Calls on a manager *)

Inductive call : Type :=
  | CallRecordSent (e : Event)
  | CallRecordReceived (e : Event)
  | CallReceivedCount
  | CallDiff
  | CallGenerateReport
  | CallTerminated (m : Metrics).

(** The manager after a call; [None] when the call panics. *)
Definition run_call (s : StateManager) (c : call) : option StateManager :=
  match c with
  | CallRecordSent e => recordSent e s
  | CallRecordReceived e => recordReceived e s
  | CallReceivedCount => Some s
  | CallDiff => Some (Diff s).1
  | CallGenerateReport => Some (GenerateReport s).1
  | CallTerminated m => Some (Terminated m s)
  end.

Definition run_calls (s : StateManager) (cs : list call)
    : option StateManager :=
  foldl (λ acc c, acc ≫= λ s, run_call s c) (Some s) cs.

Definition is_terminate (c : call) : bool :=
  match c with CallTerminated _ => true | _ => false end.

(** The event of an insertion has a partition key under [config]: its
    attribute, if any, is a string. *)
Definition well_typed (config : StateManagerConfig) (c : call) : Prop :=
  match c with
  | CallRecordSent e | CallRecordReceived e =>
      is_Some (partitionKey e config)
  | _ => True
  end.

End Manager.

(** ** The lock, and two goroutines on one manager *)

(** A [sync.RWMutex]: the number of holders of the read lock, and whether
    the write lock is held.  An operation that would block has no result.
    (A pending [Lock] also holds back new readers; no schedule below has
    one.) *)
Record RWMutex : Type := { readers : nat; writer : bool }.

Definition RLock (l : RWMutex) : option RWMutex :=
  if writer l then None
  else Some {| readers := S (readers l); writer := false |}.

Definition RUnlock (l : RWMutex) : option RWMutex :=
  match readers l with
  | O => None
  | S n => Some {| readers := n; writer := writer l |}
  end.

Definition Lock (l : RWMutex) : option RWMutex :=
  if writer l then None
  else match readers l with
       | O => Some {| readers := 0; writer := true |}
       | S _ => None
       end.

Definition Unlock (l : RWMutex) : option RWMutex :=
  if writer l then Some {| readers := readers l; writer := false |} else None.

Section Goroutines.

Context {Metrics : Type}.

(** Where the goroutine of [ReadSent] stands in the closure that handles
    the event [e]: before [RLock]; in [insert] before the entry is
    created; in [insert] before the append; before the deferred
    [RUnlock]; after it. *)
Inductive ingest_pc : Type :=
  | IngestLock
  | IngestCreate
  | IngestAppend (pk : string)
  | IngestUnlock
  | IngestDone.

(** Where a caller of [GenerateReport] stands: before [RLock]; before the
    body; before the deferred [RUnlock]; after it. *)
Inductive report_pc : Type :=
  | ReportLock
  | ReportBody
  | ReportUnlock
  | ReportDone.

Inductive goroutine : Type := Ingest | Reporter.

Record conf : Type := mkConf {
  mgr : StateManager (Metrics := Metrics);
  lock : RWMutex;
  event : Event;
  ingest : ingest_pc;
  reporter : report_pc;
  observed : option (Report.t Metrics)
}.

(** One statement of the goroutine [g]; [None] when [g] is blocked, has
    finished or panics. *)
Definition step (g : goroutine) (c : conf) : option conf :=
  match g with
  | Ingest =>
      match ingest c with
      | IngestLock =>
          l ← RLock (lock c);
          Some (mkConf (mgr c) l (event c) IngestCreate (reporter c)
                  (observed c))
      | IngestCreate =>
          pk ← partitionKey (event c) (config (mgr c));
          Some (mkConf (with_sent (insert_create pk) (mgr c)) (lock c)
                  (event c) (IngestAppend pk) (reporter c) (observed c))
      | IngestAppend pk =>
          Some (mkConf
                  (with_sent (insert_append pk (ID (event c))) (mgr c))
                  (lock c) (event c) IngestUnlock (reporter c)
                  (observed c))
      | IngestUnlock =>
          l ← RUnlock (lock c);
          Some (mkConf (mgr c) l (event c) IngestDone (reporter c)
                  (observed c))
      | IngestDone => None
      end
  | Reporter =>
      match reporter c with
      | ReportLock =>
          l ← RLock (lock c);
          Some (mkConf (mgr c) l (event c) (ingest c) ReportBody
                  (observed c))
      | ReportBody =>
          let '(s, r) := GenerateReport (mgr c) in
          Some (mkConf s (lock c) (event c) (ingest c) ReportUnlock
                  (Some r))
      | ReportUnlock =>
          l ← RUnlock (lock c);
          Some (mkConf (mgr c) l (event c) (ingest c) ReportDone
                  (observed c))
      | ReportDone => None
      end
  end.

Definition run_schedule (c : conf) (gs : list goroutine) : option conf :=
  foldl (λ acc g, acc ≫= step g) (Some c) gs.

(** One goroutine is about to handle [e] in [ReadSent], another is about
    to call [GenerateReport]; nobody holds the lock. *)
Definition start (s : StateManager (Metrics := Metrics)) (e : Event)
    : conf :=
  mkConf s {| readers := 0; writer := false |} e IngestLock ReportLock None.

End Goroutines.

(** ** Sample values *)

(** A differ with the contract of [cmp.Diff], to run [Diff] on examples. *)
Definition sample_Diff (x y : option (list string)) : string :=
  if decide (x = y) then "" else "mismatch".

(** An event with the ID [id] and, if [pk] is given, the string [pk] as its
    ["partitionkey"] extension. *)
Definition sample_event (id : string) (pk : option string) : Event :=
  {| ID := id;
     Extensions := match pk with
                   | Some p => {[ "partitionkey" := ExtString p ]}
                   | None => ∅
                   end |}.

(** The manager in ordered ([o = true]) or unordered mode once the two
    ingestion loops have drained the events given; [None] if one panics. *)
Definition sample_manager (o : bool) (sent_events received_events : list Event)
    : option (StateManager (Metrics := unit)) :=
  ReadSent sent_events (NewStateManager tt {| Ordered := o |})
  ≫= ReadReceived received_events.

(** A manager with the given ledgers, not terminated. *)
Definition ledger_state (o : bool) (sent received : gmap string (list string))
    : StateManager (Metrics := unit) :=
  mkStateManager received sent {| Ordered := o |} false tt.

(** * Properties *)

(** ** Go's order on strings *)

Lemma string_compare_refl a : String.compare a a = Eq.
Proof. by apply OrderedTypeEx.String_as_OT.cmp_eq. Qed.

Lemma string_lt_trans a b c : string_lt a b → string_lt b c → string_lt a c.
Proof.
  unfold string_lt, String.ltb. intros Hab Hbc.
  destruct (String.compare a b) eqn:E1; try discriminate.
  destruct (String.compare b c) eqn:E2; try discriminate.
  apply OrderedTypeEx.String_as_OT.cmp_lt in E1, E2.
  pose proof (OrderedTypeEx.String_as_OT.lt_trans _ _ _ E1 E2) as H.
  apply OrderedTypeEx.String_as_OT.cmp_lt in H.
  unfold OrderedTypeEx.String_as_OT.cmp in H. by rewrite H.
Qed.

Lemma string_le_lt_eq a b : string_le a b ↔ string_lt a b ∨ a = b.
Proof.
  unfold string_le, string_lt, String.leb, String.ltb. split.
  - destruct (String.compare a b) eqn:E; intros; try discriminate; auto.
    right. by apply String.compare_eq_iff.
  - intros [H | ->].
    + by destruct (String.compare a b).
    + by rewrite string_compare_refl.
Qed.

Lemma string_lt_irrefl a : ¬ string_lt a a.
Proof. unfold string_lt, String.ltb. by rewrite string_compare_refl. Qed.

#[global] Instance string_le_refl : Reflexive string_le.
Proof. intros a. apply string_le_lt_eq. by right. Qed.

#[global] Instance string_le_trans : Transitive string_le.
Proof.
  intros a b c [Hab | ->]%string_le_lt_eq [Hbc | ->]%string_le_lt_eq;
    apply string_le_lt_eq; eauto using string_lt_trans.
Qed.

#[global] Instance string_le_total : Total string_le.
Proof. intros a b. apply String.leb_total. Qed.

#[global] Instance string_le_antisymm : AntiSymm (=) string_le.
Proof. intros a b. apply String.leb_antisym. Qed.

#[global] Instance string_lt_transitive : Transitive string_lt.
Proof. intros a b c. apply string_lt_trans. Qed.

Lemma string_le_ne_lt a b : string_le a b → a ≠ b → string_lt a b.
Proof. intros [H | H]%string_le_lt_eq; [done | congruence]. Qed.

(** ** [sort.Strings] *)

Lemma sort_Strings_Permutation l : sort_Strings l ≡ₚ l.
Proof. apply merge_sort_Permutation. Qed.

Lemma sort_Strings_sorted l : StronglySorted string_le (sort_Strings l).
Proof. apply (StronglySorted_merge_sort string_le). Qed.

Lemma sort_Strings_length l : length (sort_Strings l) = length l.
Proof. by rewrite sort_Strings_Permutation. Qed.

Lemma sort_Strings_elem_of x l : x ∈ sort_Strings l ↔ x ∈ l.
Proof. by rewrite sort_Strings_Permutation. Qed.

(** Sorting depends on the contents only, not on their order. *)
Lemma sort_Strings_perm l1 l2 : l1 ≡ₚ l2 → sort_Strings l1 = sort_Strings l2.
Proof.
  intros Hp. apply (StronglySorted_unique string_le);
    auto using sort_Strings_sorted.
  by rewrite !sort_Strings_Permutation.
Qed.

Lemma sort_Strings_of_sorted l :
  StronglySorted string_le l → sort_Strings l = l.
Proof.
  intros Hs. apply (StronglySorted_unique string_le);
    auto using sort_Strings_sorted, sort_Strings_Permutation.
Qed.

Lemma sort_Strings_idemp l : sort_Strings (sort_Strings l) = sort_Strings l.
Proof. apply sort_Strings_of_sorted, sort_Strings_sorted. Qed.

(** Two slices are equal after sorting exactly when they hold the same IDs
    with the same multiplicities. *)
Lemma sort_Strings_eq_iff l1 l2 : sort_Strings l1 = sort_Strings l2 ↔ l1 ≡ₚ l2.
Proof.
  split; [| apply sort_Strings_perm].
  intros H. by rewrite <- (sort_Strings_Permutation l1), H,
    sort_Strings_Permutation.
Qed.

(** A sorted slice without repetition is strictly increasing. *)
Lemma sorted_NoDup_strict l :
  StronglySorted string_le l → NoDup l → StronglySorted string_lt l.
Proof.
  induction 1 as [| x l Hs IH Hx]; intros Hnd; [constructor |].
  apply NoDup_cons in Hnd as [Hnin Hnd]. constructor; [by apply IH |].
  apply Forall_forall. intros y Hy.
  apply string_le_ne_lt; [by eapply Forall_forall in Hx | set_solver].
Qed.

Lemma strict_sorted_NoDup l : StronglySorted string_lt l → NoDup l.
Proof.
  induction 1 as [| x l Hs IH Hx]; constructor; [| done].
  intros Hin. eapply Forall_forall in Hx; [| done].
  by apply string_lt_irrefl in Hx.
Qed.

(** ** The deduplicator *)

Lemma first_occurrences_snoc a x :
  first_occurrences (a ++ [x])
  = first_occurrences a ++ (if decide (x ∈ a) then [] else [x]).
Proof.
  unfold first_occurrences. rewrite imap_app, omap_app. f_equal.
  - f_equal. apply imap_ext. intros i y Hi. simpl.
    rewrite take_app_le; [done |]. apply lookup_lt_Some in Hi. lia.
  - simpl. rewrite Nat.add_0_r, take_app_length. by case_decide.
Qed.

Lemma repeat_occurrences_snoc a x :
  repeat_occurrences (a ++ [x])
  = repeat_occurrences a ++ (if decide (x ∈ a) then [x] else []).
Proof.
  unfold repeat_occurrences. rewrite imap_app, omap_app. f_equal.
  - f_equal. apply imap_ext. intros i y Hi. simpl.
    rewrite take_app_le; [done |]. apply lookup_lt_Some in Hi. lia.
  - simpl. rewrite Nat.add_0_r, take_app_length. by case_decide.
Qed.

(** The state of the loop of [removeDuplicates] after the prefix [a]. *)
Lemma removeDuplicates_loop a :
  foldl removeDuplicates_step (∅, [], []) a
  = (list_to_set a, first_occurrences a, repeat_occurrences a).
Proof.
  induction a as [| x a IH] using rev_ind; [done |].
  rewrite foldl_app, IH. simpl.
  rewrite first_occurrences_snoc, repeat_occurrences_snoc.
  assert (({[x]} ∪ list_to_set a : gset string) = list_to_set (a ++ [x]))
    as ->.
  { rewrite list_to_set_app_L. simpl. set_solver. }
  destruct (decide (x ∈ list_to_set a)) as [Hin | Hin];
    rewrite elem_of_list_to_set in Hin.
  - rewrite !decide_True by done. by rewrite app_nil_r.
  - rewrite !decide_False by done. by rewrite app_nil_r.
Qed.

Lemma removeDuplicates_eq a :
  removeDuplicates a = (first_occurrences a, repeat_occurrences a).
Proof. unfold removeDuplicates. by rewrite removeDuplicates_loop. Qed.

Lemma first_occurrences_elem_of a x : x ∈ first_occurrences a ↔ x ∈ a.
Proof.
  induction a as [| y a IH] using rev_ind; [done |].
  rewrite first_occurrences_snoc. case_decide; set_solver.
Qed.

Lemma first_occurrences_NoDup a : NoDup (first_occurrences a).
Proof.
  induction a as [| y a IH] using rev_ind; [constructor |].
  rewrite first_occurrences_snoc. case_decide.
  - by rewrite app_nil_r.
  - apply NoDup_app. split; [done |]. split; [| apply NoDup_singleton].
    intros z Hz. rewrite first_occurrences_elem_of in Hz. set_solver.
Qed.

Lemma first_occurrences_sublist a : first_occurrences a `sublist_of` a.
Proof.
  induction a as [| y a IH] using rev_ind; [done |].
  rewrite first_occurrences_snoc. apply sublist_app; [done |].
  case_decide; [apply sublist_nil_l | done].
Qed.

Lemma repeat_occurrences_sublist a : repeat_occurrences a `sublist_of` a.
Proof.
  induction a as [| y a IH] using rev_ind; [done |].
  rewrite repeat_occurrences_snoc. apply sublist_app; [done |].
  case_decide; [done | apply sublist_nil_l].
Qed.

Lemma occurrences_app x l1 l2 :
  occurrences x (l1 ++ l2) = occurrences x l1 + occurrences x l2.
Proof. unfold occurrences. by rewrite filter_app, length_app. Qed.

Lemma occurrences_zero x l : x ∉ l → occurrences x l = 0.
Proof.
  unfold occurrences. induction l as [| y l IH]; [done |].
  intros Hn. rewrite filter_cons. case_decide; [set_solver |].
  apply IH. set_solver.
Qed.

Lemma occurrences_pos x l : x ∈ l → 0 < occurrences x l.
Proof.
  unfold occurrences. induction l as [| y l IH]; [set_solver |].
  intros Hin. rewrite filter_cons. case_decide; simpl; [lia |].
  apply IH. set_solver.
Qed.

(** An ID of [a] occurs once among the first occurrences; the repeats hold
    the other occurrences. *)
Lemma occurrences_split x a :
  occurrences x (first_occurrences a)
  = (if decide (x ∈ a) then 1 else 0)
  ∧ occurrences x (first_occurrences a) + occurrences x (repeat_occurrences a)
    = occurrences x a.
Proof.
  induction a as [| y a [IH1 IH2]] using rev_ind.
  - split; [| done]. rewrite decide_False; [done | set_solver].
  - rewrite first_occurrences_snoc, repeat_occurrences_snoc,
      !occurrences_app, IH1. split.
    + destruct (decide (y ∈ a)) as [Hy | Hy]; cbn [occurrences].
      * rewrite (occurrences_zero x []) by set_solver.
        repeat case_decide; set_solver by lia.
      * unfold occurrences at 1. rewrite filter_cons, filter_nil.
        repeat case_decide; simpl; set_solver by lia.
    + rewrite <- IH2, IH1.
      destruct (decide (y ∈ a)); unfold occurrences;
        rewrite ?filter_cons, ?filter_nil; repeat case_decide; simpl; lia.
Qed.

(** C2.  [removeDuplicates] returns the first occurrences of the IDs of [a]
    and the repeated occurrences, each in the order of [a]: the first
    sequence has no ID twice and is a subsequence of [a], as is the second;
    an ID that occurs N times in [a] occurs once in the first sequence and
    N-1 times in the second, and an ID that does not occur in [a] occurs in
    neither; on ["a","a","b","a"] the result is (["a","b"], ["a","a"]). *)
Theorem removeDuplicates_contract (a : list string) :
  removeDuplicates a = (first_occurrences a, repeat_occurrences a)
  ∧ NoDup (removeDuplicates a).1
  ∧ (removeDuplicates a).1 `sublist_of` a
  ∧ (removeDuplicates a).2 `sublist_of` a
  ∧ (∀ x, occurrences x (removeDuplicates a).1
          = (if decide (x ∈ a) then 1 else 0)
        ∧ occurrences x (removeDuplicates a).2
          = occurrences x a - occurrences x (removeDuplicates a).1)
  ∧ removeDuplicates ["a"; "a"; "b"; "a"] = (["a"; "b"], ["a"; "a"]).
Proof.
  rewrite removeDuplicates_eq. simpl. split_and!.
  - done.
  - apply first_occurrences_NoDup.
  - apply first_occurrences_sublist.
  - apply repeat_occurrences_sublist.
  - intros x. destruct (occurrences_split x a) as [H1 H2]. split; [done | lia].
  - by vm_compute.
Qed.

(** ** Sums over keys *)

Lemma sum_over_snoc f ks k : sum_over f (ks ++ [k]) = (sum_over f ks + f k)%Z.
Proof.
  unfold sum_over. induction ks as [| k' ks IH]; simpl; [lia |].
  rewrite IH. lia.
Qed.

Lemma sum_over_perm f ks1 ks2 : ks1 ≡ₚ ks2 → sum_over f ks1 = sum_over f ks2.
Proof.
  induction 1 as [| k ks1 ks2 _ IH | k1 k2 ks | ks1 ks2 ks3 _ IH1 _ IH2];
    simpl; [done | by rewrite IH | lia | congruence].
Qed.

Lemma sum_over_ext f g ks :
  (∀ k, k ∈ ks → f k = g k) → sum_over f ks = sum_over g ks.
Proof.
  induction ks as [| k ks IH]; intros Hfg; simpl; [done |].
  rewrite Hfg, IH; set_solver.
Qed.

Lemma sum_over_nonneg f ks : (∀ k, 0 ≤ f k)%Z → (0 ≤ sum_over f ks)%Z.
Proof.
  intros Hf. induction ks as [| k ks IH]; simpl; [lia |].
  specialize (Hf k). lia.
Qed.

(** ** The keys of a ledger *)

Lemma elem_of_keys {V} (m : gmap string V) k : k ∈ keys m ↔ is_Some (m !! k).
Proof.
  unfold keys. rewrite list_elem_of_fmap. split.
  - intros [[k' v] [-> Hin]]. apply elem_of_map_to_list in Hin. by exists v.
  - intros [v Hv]. exists (k, v). split; [done |].
    by apply elem_of_map_to_list.
Qed.

Lemma NoDup_keys {V} (m : gmap string V) : NoDup (keys m).
Proof. apply NoDup_fst_map_to_list. Qed.

Lemma range_order_keys {V} (m : gmap string V) : range_order m (keys m).
Proof. unfold range_order. reflexivity. Qed.

Lemma range_order_NoDup {V} (m : gmap string V) ks :
  range_order m ks → NoDup ks.
Proof. unfold range_order. intros ->. apply NoDup_keys. Qed.

Lemma range_order_elem_of {V} (m : gmap string V) ks k :
  range_order m ks → k ∈ ks ↔ is_Some (m !! k).
Proof. unfold range_order. intros ->. apply elem_of_keys. Qed.

Lemma range_order_perm {V} (m : gmap string V) ks1 ks2 :
  range_order m ks1 → range_order m ks2 → ks1 ≡ₚ ks2.
Proof. unfold range_order. by intros -> ->. Qed.

(** ** The loop of [GenerateReport] *)

Section Loops.

Context {Metrics : Type}.
Implicit Types (s : StateManager (Metrics := Metrics)).
Implicit Types (ks : list string) (k : string).

Lemma GenerateReport_in_snoc ks k s :
  GenerateReport_in (ks ++ [k]) s
  = GenerateReport_body (GenerateReport_in ks s) k.
Proof. unfold GenerateReport_in. by rewrite foldl_app. Qed.

(** What no turn of the loop touches, whatever the keys visited. *)
Lemma GenerateReport_in_frame ks s :
  received (GenerateReport_in ks s).1 = received s
  ∧ config (GenerateReport_in ks s).1 = config s
  ∧ terminated (GenerateReport_in ks s).1 = terminated s
  ∧ metrics (GenerateReport_in ks s).1 = metrics s
  ∧ Report.Metrics (GenerateReport_in ks s).2 = metrics s
  ∧ Report.Terminated (GenerateReport_in ks s).2 = terminated s.
Proof.
  induction ks as [| k ks IH] using rev_ind; [done |].
  rewrite GenerateReport_in_snoc.
  destruct (GenerateReport_in ks s) as [s1 r1]. simpl in *.
  destruct (Ordered (config s1)); simpl; done.
Qed.

Lemma sent_view_lookup s k v :
  sent s !! k = Some v → sent_view s k = normalize (config s) v.
Proof.
  intros Hv. unfold sent_view. by rewrite (lookup_total_correct _ _ _ Hv).
Qed.

(** The manager and the report once the loop has visited the keys [ks] of
    the sent ledger, each once. *)
Lemma GenerateReport_in_inv ks s :
  NoDup ks →
  (∀ k, k ∈ ks → is_Some (sent s !! k)) →
  let s' := (GenerateReport_in ks s).1 in
  let r := (GenerateReport_in ks s).2 in
  (∀ k, sent s' !! k
        = if decide (k ∈ ks) then Some (sent_view s k) else sent s !! k)
  ∧ (∀ k, Report.LostEventsByPartitionKey r !! k
          = if decide (k ∈ ks) then Some (lost_view s k) else None)
  ∧ (∀ k, Report.DuplicateEventsByPartitionKey r !! k
          = if decide (k ∈ ks) then Some (duplicates_view s k) else None)
  ∧ (∀ k, Report.ReceivedEventsByPartitionKey r !! k
          = if decide (k ∈ ks) then Some (sent_view s k) else None)
  ∧ Report.LostCount r = sum_over (λ k, len (lost_view s k)) ks
  ∧ Report.DuplicateCount r
    = sum_over (λ k, len_slice (duplicates_view s k)) ks
  ∧ Report.ReceivedCount r = sum_over (λ k, len (sent_view s k)) ks.
Proof.
  induction ks as [| k ks IH] using rev_ind; intros Hnd Hdom.
  { simpl. split_and!; try done; intros k; by rewrite ?lookup_empty. }
  apply NoDup_app in Hnd as (Hnd & Hk & _).
  assert (k ∉ ks) as Hnin by (intros Hin; apply (Hk k Hin); set_solver).
  destruct (Hdom k) as [v Hv]; [set_solver |].
  specialize (IH Hnd). destruct IH as (Hs & HL & HD & HR & HLc & HDc & HRc).
  { intros k' Hk'. apply Hdom. set_solver. }
  simpl. rewrite GenerateReport_in_snoc.
  destruct (GenerateReport_in_frame ks s) as (Hrecv & Hcfg & _).
  destruct (GenerateReport_in ks s) as [s1 r1]. simpl in *.
  rewrite Hrecv, Hcfg.
  assert (sent s1 !! k = Some v) as Hv1.
  { rewrite Hs. by rewrite decide_False. }
  assert (sent (if Ordered (config s) then s1 else sort_sent_entry k s1)
            !!! k = sent_view s k) as Hview.
  { rewrite (sent_view_lookup s k v Hv). unfold normalize.
    destruct (Ordered (config s)); simpl.
    - by apply lookup_total_correct.
    - rewrite lookup_total_insert_eq.
      by rewrite (lookup_total_correct _ _ _ Hv1). }
  assert ((if Ordered (config s)
           then (λ v0, (removeDuplicates v0).1) <$> received s !! k
           else sort_slice ((λ v0, (removeDuplicates v0).1)
                              <$> received s !! k))
          = clean_received s k) as Hclean.
  { unfold clean_received, normalize, sort_slice.
    destruct (Ordered (config s)), (received s !! k); done. }
  assert ((if Ordered (config s)
           then (λ v0, (removeDuplicates v0).2) <$> received s !! k
           else sort_slice ((λ v0, (removeDuplicates v0).2)
                              <$> received s !! k))
          = duplicates_view s k) as Hdup.
  { unfold duplicates_view, normalize, sort_slice.
    destruct (Ordered (config s)), (received s !! k); done. }
  rewrite Hview, Hclean, Hdup. fold (lost_view s k).
  rewrite !sum_over_snoc, HLc, HDc, HRc.
  split_and!; try done; intros k'.
  - destruct (decide (k' = k)) as [-> | Hne].
    + rewrite decide_True by set_solver.
      rewrite <- Hview. destruct (Ordered (config s)); simpl.
      * rewrite Hv1. f_equal. symmetry. by apply lookup_total_correct.
      * by rewrite lookup_insert_eq, lookup_total_insert_eq.
    + assert (sent (if Ordered (config s) then s1 else sort_sent_entry k s1)
                !! k' = sent s1 !! k') as ->.
      { destruct (Ordered (config s)); simpl; [done |].
        by rewrite lookup_insert_ne. }
      rewrite Hs. destruct (decide (k' ∈ ks)).
      * by rewrite decide_True by set_solver.
      * by rewrite decide_False by set_solver.
  - rewrite lookup_insert. destruct (decide (k = k')) as [-> | Hne].
    + by rewrite decide_True by set_solver.
    + rewrite HL. destruct (decide (k' ∈ ks)).
      * by rewrite decide_True by set_solver.
      * by rewrite decide_False by set_solver.
  - rewrite lookup_insert. destruct (decide (k = k')) as [-> | Hne].
    + by rewrite decide_True by set_solver.
    + rewrite HD. destruct (decide (k' ∈ ks)).
      * by rewrite decide_True by set_solver.
      * by rewrite decide_False by set_solver.
  - rewrite lookup_insert. destruct (decide (k = k')) as [-> | Hne].
    + by rewrite decide_True by set_solver.
    + rewrite HR. destruct (decide (k' ∈ ks)).
      * by rewrite decide_True by set_solver.
      * by rewrite decide_False by set_solver.
Qed.

End Loops.

(** ** The loop of [Diff] *)

Lemma append_nonempty (a b : string) : a ≠ "" → a +:+ b ≠ "".
Proof. by destruct a. Qed.

Section DiffLoop.

Context {Metrics : Type}.
Variable cmp_Diff : option (list string) → option (list string) → string.
Implicit Types (s : StateManager (Metrics := Metrics)).
Implicit Types (ks : list string) (k : string).

(** What no turn of the loop touches, whatever the keys visited. *)
Lemma Diff_loop_frame ks s acc :
  acc.1.1 = s →
  received (foldl (Diff_body cmp_Diff) acc ks).1.1 = received s
  ∧ config (foldl (Diff_body cmp_Diff) acc ks).1.1 = config s
  ∧ terminated (foldl (Diff_body cmp_Diff) acc ks).1.1 = terminated s
  ∧ metrics (foldl (Diff_body cmp_Diff) acc ks).1.1 = metrics s.
Proof.
  intros <-. induction ks as [| k ks IH] using rev_ind; [done |].
  rewrite foldl_app. simpl.
  destruct (foldl (Diff_body cmp_Diff) acc ks) as [[s1 h1] f1].
  simpl in *. destruct (Ordered (config s1)); simpl; done.
Qed.

(** The loop of [Diff] once it has visited the keys [ks] of the sent
    ledger, each once: the sent ledger, the flag and the text. *)
Lemma Diff_loop_inv ks s hdr :
  NoDup ks →
  (∀ k, k ∈ ks → is_Some (sent s !! k)) →
  let out := foldl (Diff_body cmp_Diff) (s, false, hdr) ks in
  (∀ k, sent out.1.1 !! k
        = if decide (k ∈ ks) then Some (sent_view s k) else sent s !! k)
  ∧ (out.1.2 = true ↔ ∃ k, k ∈ ks ∧ diff_at cmp_Diff s k ≠ "")
  ∧ out.2
    = foldl (λ text k, text +:+ partition_header k (diff_at cmp_Diff s k))
        hdr ks.
Proof.
  induction ks as [| k ks IH] using rev_ind; intros Hnd Hdom.
  { simpl. split_and!; [done | | done]. split; [done |].
    intros (k & Hk & _). set_solver. }
  apply NoDup_app in Hnd as (Hnd & Hk & _).
  assert (k ∉ ks) as Hnin by (intros Hin; apply (Hk k Hin); set_solver).
  destruct (Hdom k) as [v Hv]; [set_solver |].
  specialize (IH Hnd). destruct IH as (Hs & Hh & Ht).
  { intros k' Hk'. apply Hdom. set_solver. }
  simpl. rewrite !foldl_app. simpl.
  destruct (Diff_loop_frame ks s (s, false, hdr) eq_refl) as (Hrecv & Hcfg & _).
  destruct (foldl (Diff_body cmp_Diff) (s, false, hdr) ks) as [[s1 h1] f1].
  simpl in *. rewrite Hrecv, Hcfg.
  assert (sent s1 !! k = Some v) as Hv1.
  { rewrite Hs. by rewrite decide_False. }
  assert (sent (if Ordered (config s) then s1 else sort_sent_entry k s1)
            !!! k = sent_view s k) as Hview.
  { rewrite (sent_view_lookup s k v Hv). unfold normalize.
    destruct (Ordered (config s)); simpl.
    - by apply lookup_total_correct.
    - rewrite lookup_total_insert_eq.
      by rewrite (lookup_total_correct _ _ _ Hv1). }
  assert ((if Ordered (config s)
           then (λ v0, (removeDuplicates v0).1) <$> received s !! k
           else sort_slice ((λ v0, (removeDuplicates v0).1)
                              <$> received s !! k))
          = clean_received s k) as Hclean.
  { unfold clean_received, normalize, sort_slice.
    destruct (Ordered (config s)), (received s !! k); done. }
  rewrite Hview, Hclean. fold (diff_at cmp_Diff s k).
  split_and!.
  - intros k'. destruct (decide (k' = k)) as [-> | Hne].
    + rewrite decide_True by set_solver.
      rewrite <- Hview. destruct (Ordered (config s)); simpl.
      * rewrite Hv1. f_equal. symmetry. by apply lookup_total_correct.
      * by rewrite lookup_insert_eq, lookup_total_insert_eq.
    + assert (sent (if Ordered (config s) then s1 else sort_sent_entry k s1)
                !! k' = sent s1 !! k') as ->.
      { destruct (Ordered (config s)); simpl; [done |].
        by rewrite lookup_insert_ne. }
      rewrite Hs. destruct (decide (k' ∈ ks)).
      * by rewrite decide_True by set_solver.
      * by rewrite decide_False by set_solver.
  - destruct (decide (diff_at cmp_Diff s k ≠ "")) as [Hd | Hd].
    + split; [| done]. intros _. exists k. set_solver.
    + rewrite Hh. split.
      * intros (k' & Hk' & Hd'). exists k'. set_solver.
      * intros (k' & Hk' & Hd'). exists k'. split; [| done].
        apply elem_of_app in Hk' as [Hk' | Hk']; [done |].
        apply list_elem_of_singleton in Hk' as ->. done.
  - by rewrite Ht.
Qed.

Lemma Diff_text_nonempty s ks hdr :
  hdr ≠ "" →
  foldl (λ text k, text +:+ partition_header k (diff_at cmp_Diff s k))
    hdr ks ≠ "".
Proof.
  intros Hhdr. induction ks as [| k ks IH] using rev_ind; [done |].
  rewrite foldl_app. simpl. by apply append_nonempty.
Qed.

End DiffLoop.

(** ** String sets *)

Lemma sets_List_elem_of (X : gset string) x : x ∈ sets.List X ↔ x ∈ X.
Proof. unfold sets.List. by rewrite sort_Strings_elem_of, elem_of_elements. Qed.

Lemma sets_List_NoDup (X : gset string) : NoDup (sets.List X).
Proof.
  unfold sets.List. rewrite sort_Strings_Permutation. apply NoDup_elements.
Qed.

Lemma sets_List_sorted (X : gset string) :
  StronglySorted string_le (sets.List X).
Proof. apply sort_Strings_sorted. Qed.

Lemma sets_List_to_set (X : gset string) : list_to_set (sets.List X) = X.
Proof.
  apply set_eq. intros x. by rewrite elem_of_list_to_set, sets_List_elem_of.
Qed.

Lemma sets_List_length (X : gset string) : length (sets.List X) = size X.
Proof. unfold sets.List. by rewrite sort_Strings_length. Qed.

(** ** The lost events of the report *)

Section Lost.

Context {Metrics : Type}.
Implicit Types (s : StateManager (Metrics := Metrics)).
Implicit Types (ks : list string) (k : string).

(** The set of the lost IDs at key [k]: the IDs sent, but those that have
    a first occurrence in the received sequence of [k]. *)
Lemma lost_view_set s k :
  (list_to_set (lost_view s k) : gset string)
  = list_to_set (sent s !!! k)
    ∖ list_to_set
        (default [] ((λ v, (removeDuplicates v).1) <$> received s !! k)).
Proof.
  unfold lost_view. rewrite sets_List_to_set.
  unfold sets.Difference, sets.NewString, sent_view, clean_received,
    normalize.
  apply set_eq. intros x. rewrite !elem_of_difference, !elem_of_list_to_set.
  destruct (Ordered (config s)), (received s !! k); simpl;
    by rewrite ?sort_Strings_elem_of.
Qed.

Lemma lost_view_len s k :
  len (lost_view s k)
  = Z.of_nat (size (list_to_set (sent s !!! k)
                    ∖ list_to_set
                        (default [] ((λ v, (removeDuplicates v).1)
                                       <$> received s !! k)) : gset string)).
Proof.
  rewrite <- lost_view_set. unfold lost_view, len.
  by rewrite sets_List_to_set, sets_List_length.
Qed.

(** The report of [GenerateReport] does not depend on the order in which
    the loop visits the sent ledger. *)
Lemma GenerateReport_in_order ks s :
  range_order (sent s) ks →
  (GenerateReport_in ks s).2 = (GenerateReport s).2.
Proof.
  intros Hks. unfold GenerateReport.
  pose proof (range_order_keys (sent s)) as Hks0.
  pose proof (GenerateReport_in_inv ks s (range_order_NoDup _ _ Hks)) as H1.
  pose proof (GenerateReport_in_inv (keys (sent s)) s
                (range_order_NoDup _ _ Hks0)) as H2.
  destruct (GenerateReport_in_frame ks s) as (_ & _ & _ & _ & Hm1 & Ht1).
  destruct (GenerateReport_in_frame (keys (sent s)) s)
    as (_ & _ & _ & _ & Hm2 & Ht2).
  simpl in H1, H2.
  destruct H1 as (_ & HL1 & HD1 & HR1 & HLc1 & HDc1 & HRc1).
  { intros k Hk. by apply (range_order_elem_of _ _ _ Hks). }
  destruct H2 as (_ & HL2 & HD2 & HR2 & HLc2 & HDc2 & HRc2).
  { intros k Hk. by apply elem_of_keys. }
  destruct (GenerateReport_in ks s) as [s1 r1].
  destruct (GenerateReport_in (keys (sent s)) s) as [s2 r2].
  destruct r1, r2. simpl in *. subst.
  assert (∀ k, (k ∈ ks) ↔ (k ∈ keys (sent s))) as Hiff.
  { intros k. by rewrite Hks. }
  f_equal.
  - by apply sum_over_perm.
  - by apply sum_over_perm.
  - by apply sum_over_perm.
  - apply map_eq. intros k. rewrite HL1, HL2.
    destruct (decide (k ∈ ks)) as [Hin | Hin]; rewrite Hiff in Hin.
    + by rewrite decide_True.
    + by rewrite decide_False.
  - apply map_eq. intros k. rewrite HD1, HD2.
    destruct (decide (k ∈ ks)) as [Hin | Hin]; rewrite Hiff in Hin.
    + by rewrite decide_True.
    + by rewrite decide_False.
  - apply map_eq. intros k. rewrite HR1, HR2.
    destruct (decide (k ∈ ks)) as [Hin | Hin]; rewrite Hiff in Hin.
    + by rewrite decide_True.
    + by rewrite decide_False.
Qed.

End Lost.

(** ** The report: what it holds at each key *)

Section ReportClaims.

Context {Metrics : Type}.
Implicit Types (s : StateManager (Metrics := Metrics)).
Implicit Types (ks : list string) (k : string).

(** The entries and the counters of the report, for an order [ks] in which
    the loop may visit the sent ledger. *)
Lemma GenerateReport_in_spec ks s :
  range_order (sent s) ks →
  let r := (GenerateReport_in ks s).2 in
  (∀ k, Report.LostEventsByPartitionKey r !! k
        = (λ _, lost_view s k) <$> sent s !! k)
  ∧ (∀ k, Report.DuplicateEventsByPartitionKey r !! k
          = (λ _, duplicates_view s k) <$> sent s !! k)
  ∧ (∀ k, Report.ReceivedEventsByPartitionKey r !! k
          = normalize (config s) <$> sent s !! k)
  ∧ Report.LostCount r = sum_over (λ k, len (lost_view s k)) ks
  ∧ Report.DuplicateCount r
    = sum_over (λ k, len_slice (duplicates_view s k)) ks
  ∧ Report.ReceivedCount r = sum_over (λ k, len (sent s !!! k)) ks.
Proof.
  intros Hks.
  destruct (GenerateReport_in_inv ks s (range_order_NoDup _ _ Hks))
    as (_ & HL & HD & HR & HLc & HDc & HRc).
  { intros k Hk. by apply (range_order_elem_of _ _ _ Hks). }
  simpl. split_and!; try done.
  - intros k. rewrite HL. destruct (decide (k ∈ ks)) as [Hin | Hin];
      rewrite (range_order_elem_of _ _ _ Hks) in Hin.
    + by destruct Hin as [v ->].
    + apply eq_None_not_Some in Hin. by rewrite Hin.
  - intros k. rewrite HD. destruct (decide (k ∈ ks)) as [Hin | Hin];
      rewrite (range_order_elem_of _ _ _ Hks) in Hin.
    + by destruct Hin as [v ->].
    + apply eq_None_not_Some in Hin. by rewrite Hin.
  - intros k. rewrite HR. destruct (decide (k ∈ ks)) as [Hin | Hin];
      rewrite (range_order_elem_of _ _ _ Hks) in Hin.
    + destruct Hin as [v Hv]. rewrite Hv. simpl.
      by rewrite (sent_view_lookup s k v Hv).
    + apply eq_None_not_Some in Hin. by rewrite Hin.
  - rewrite HRc. apply sum_over_ext. intros k _.
    unfold sent_view, normalize, len.
    destruct (Ordered (config s)); [done |].
    by rewrite sort_Strings_length.
Qed.

End ReportClaims.

Lemma range_order_singleton {V} (m : gmap string V) ks k v :
  m = {[ k := v ]} → range_order m ks → ks = [k].
Proof.
  intros -> Hks. unfold range_order, keys in Hks.
  rewrite map_to_list_singleton in Hks. simpl in Hks.
  by apply Permutation_singleton_r in Hks.
Qed.

Section LostClaims.

Context {Metrics : Type}.
Implicit Types (s : StateManager (Metrics := Metrics)).
Implicit Types (ks : list string) (k : string).

(** C4.  For every ledger and every key of the sent ledger, the lost events
    of the report at that key hold, each once, the IDs of the set
    difference of the sent IDs and the first occurrences of the received
    IDs of the key (no received ID when the key never received); LostCount
    is the sum of the sizes of these sets over the keys of the sent ledger;
    with sent {p1: [e1,e2,e3]} and received {p1: [e1,e3]}, the lost events
    of p1 are [e2] and LostCount is 1. *)
Theorem report_lost_is_set_difference s ks :
  range_order (sent s) ks →
  let r := (GenerateReport_in ks s).2 in
  let lost_set k : gset string :=
    list_to_set (sent s !!! k)
    ∖ list_to_set
        (default [] ((λ v, (removeDuplicates v).1) <$> received s !! k)) in
  (∀ k, is_Some (sent s !! k) →
     ∃ lost, Report.LostEventsByPartitionKey r !! k = Some lost
             ∧ NoDup lost
             ∧ list_to_set lost = lost_set k)
  ∧ Report.LostCount r = sum_over (λ k, Z.of_nat (size (lost_set k))) ks
  ∧ (sent s = {[ "p1" := ["e1"; "e2"; "e3"] ]} →
     received s = {[ "p1" := ["e1"; "e3"] ]} →
     Report.LostEventsByPartitionKey r = {[ "p1" := ["e2"] ]}
     ∧ Report.LostCount r = 1%Z).
Proof.
  intros Hks r lost_set.
  destruct (GenerateReport_in_spec ks s Hks) as (HL & _ & _ & HLc & _).
  fold r in HL, HLc. split_and!.
  - intros k [v Hv]. exists (lost_view s k). split_and!.
    + by rewrite HL, Hv.
    + apply sets_List_NoDup.
    + apply lost_view_set.
  - rewrite HLc. apply sum_over_ext. intros k _. apply lost_view_len.
  - intros Hsent Hrecv.
    assert (lost_view s "p1" = ["e2"]) as Hlost.
    { unfold lost_view, sent_view, clean_received, normalize.
      rewrite Hsent, Hrecv. by destruct (Ordered (config s)); vm_compute. }
    split.
    + apply map_eq. intros k. rewrite HL, Hsent.
      destruct (decide (k = "p1")) as [-> | Hne].
      * by rewrite !lookup_singleton_eq, <- Hlost.
      * by rewrite !lookup_singleton_ne.
    + rewrite HLc, (range_order_singleton _ _ _ _ Hsent Hks). simpl.
      by rewrite Hlost.
Qed.

(** C10.  For every ledger and every key of the sent ledger, the lost
    events of the report at that key are in increasing order of the IDs
    and hold no ID twice, in ordered and in unordered mode alike; so in
    ordered mode, with [e2] sent before [e1] at a key and nothing received,
    the lost events are [e1, e2], not in the order sent. *)
Theorem report_lost_sorted s ks :
  range_order (sent s) ks →
  let r := (GenerateReport_in ks s).2 in
  (∀ k, is_Some (sent s !! k) →
     ∃ lost, Report.LostEventsByPartitionKey r !! k = Some lost
             ∧ StronglySorted string_le lost
             ∧ NoDup lost
             ∧ StronglySorted string_lt lost)
  ∧ (Ordered (config s) = true →
     sent s = {[ "p1" := ["e2"; "e1"] ]} →
     received s = ∅ →
     Report.LostEventsByPartitionKey r = {[ "p1" := ["e1"; "e2"] ]}).
Proof.
  intros Hks r.
  destruct (GenerateReport_in_spec ks s Hks) as (HL & _).
  fold r in HL. split.
  - intros k [v Hv]. exists (lost_view s k).
    pose proof (sets_List_sorted
      (sets.Difference (sets.NewString (sent_view s k))
         (sets.NewString (default [] (clean_received s k))))) as Hsorted.
    pose proof (sets_List_NoDup
      (sets.Difference (sets.NewString (sent_view s k))
         (sets.NewString (default [] (clean_received s k))))) as Hnd.
    fold (lost_view s k) in Hsorted, Hnd.
    split_and!; [by rewrite HL, Hv | done | done |].
    by apply sorted_NoDup_strict.
  - intros Hord Hsent Hrecv.
    assert (lost_view s "p1" = ["e1"; "e2"]) as Hlost.
    { unfold lost_view, sent_view, clean_received, normalize.
      rewrite Hsent, Hrecv, Hord. by vm_compute. }
    apply map_eq. intros k. rewrite HL, Hsent.
    destruct (decide (k = "p1")) as [-> | Hne].
    + by rewrite !lookup_singleton_eq, <- Hlost.
    + by rewrite !lookup_singleton_ne.
Qed.

End LostClaims.

Lemma report_lost_is_set_difference_witness :
  let s := ledger_state true {[ "p1" := ["e1"; "e2"; "e3"] ]}
             {[ "p1" := ["e1"; "e3"] ]} in
  let r := (GenerateReport_in ["p1"] s).2 in
  range_order (sent s) ["p1"]
  ∧ Report.LostEventsByPartitionKey r = {[ "p1" := ["e2"] ]}
  ∧ Report.LostCount r = 1%Z.
Proof.
  intros s r.
  assert (range_order (sent s) ["p1"]) as Hks by (by vm_compute).
  split; [done |].
  apply (report_lost_is_set_difference s ["p1"] Hks); reflexivity.
Defined.

Lemma report_lost_sorted_witness :
  let s := ledger_state true {[ "p1" := ["e2"; "e1"] ]} ∅ in
  let r := (GenerateReport_in ["p1"] s).2 in
  range_order (sent s) ["p1"]
  ∧ Report.LostEventsByPartitionKey r = {[ "p1" := ["e1"; "e2"] ]}.
Proof.
  intros s r.
  assert (range_order (sent s) ["p1"]) as Hks by (by vm_compute).
  split; [done |].
  apply (report_lost_sorted s ["p1"] Hks); reflexivity.
Defined.

(** ** The report: received events, and the ledger after the call *)

Lemma GenerateReport_in_sent {Metrics} (s : StateManager (Metrics := Metrics))
    ks :
  range_order (sent s) ks →
  ∀ k, sent (GenerateReport_in ks s).1 !! k
       = normalize (config s) <$> sent s !! k.
Proof.
  intros Hks k.
  destruct (GenerateReport_in_inv ks s (range_order_NoDup _ _ Hks))
    as (Hs & _).
  { intros k' Hk'. by apply (range_order_elem_of _ _ _ Hks). }
  rewrite Hs. destruct (decide (k ∈ ks)) as [Hin | Hin];
    rewrite (range_order_elem_of _ _ _ Hks) in Hin.
  - destruct Hin as [v Hv]. rewrite Hv. simpl.
    by rewrite (sent_view_lookup s k v Hv).
  - apply eq_None_not_Some in Hin. by rewrite Hin.
Qed.

(** C1.  The report does not hold the received sequences: after the [if]
    statement of the loop, [v] is the entry of the sent ledger, so
    ReceivedEventsByPartitionKey maps each key of the sent ledger to its
    sent sequence (sorted in unordered mode) and ReceivedCount is the sum
    of the lengths of the sent sequences.  With sent {p1: [e1]} and received
    {p1: [e1, e1]}, ReceivedCount is 1, not 2; DuplicateCount is 1 and no
    event is lost. *)
Theorem report_received_is_sent_ledger :
  (∀ Metrics (s : StateManager (Metrics := Metrics)) ks,
     range_order (sent s) ks →
     let r := (GenerateReport_in ks s).2 in
     (∀ k, Report.ReceivedEventsByPartitionKey r !! k
           = (λ v, if Ordered (config s) then v else sort_Strings v)
               <$> sent s !! k)
     ∧ Report.ReceivedCount r = sum_over (λ k, len (sent s !!! k)) ks)
  ∧ let s := ledger_state true {[ "p1" := ["e1"] ]}
               {[ "p1" := ["e1"; "e1"] ]} in
    let r := (GenerateReport s).2 in
    sample_manager true [sample_event "e1" (Some "p1")]
      [sample_event "e1" (Some "p1"); sample_event "e1" (Some "p1")] = Some s
    ∧ Report.ReceivedEventsByPartitionKey r = {[ "p1" := ["e1"] ]}
    ∧ Report.ReceivedCount r = 1%Z
    ∧ Report.DuplicateEventsByPartitionKey r = {[ "p1" := Some ["e1"] ]}
    ∧ Report.DuplicateCount r = 1%Z
    ∧ Report.LostEventsByPartitionKey r = {[ "p1" := [] ]}
    ∧ Report.LostCount r = 0%Z.
Proof.
  split.
  - intros Metrics s ks Hks r.
    destruct (GenerateReport_in_spec ks s Hks) as (_ & _ & HR & _ & _ & HRc).
    split; [| done]. intros k. by rewrite HR.
  - split_and!; vm_compute; reflexivity.
Qed.

(** C7.  [GenerateReport] writes to the sent ledger in unordered mode:
    [sort.Strings(sent)] sorts the entry of the ledger itself.  After the
    call the received ledger is as before and each entry of the sent ledger
    is as before in ordered mode, sorted in unordered mode.  With [e2] sent
    before [e1] in unordered mode, the sent ledger is {unknown: [e2, e1]}
    before the call and {unknown: [e1, e2]} after it. *)
Theorem GenerateReport_sorts_sent_ledger :
  (∀ Metrics (s : StateManager (Metrics := Metrics)) ks,
     range_order (sent s) ks →
     let s' := (GenerateReport_in ks s).1 in
     received s' = received s
     ∧ ∀ k, sent s' !! k
            = (λ v, if Ordered (config s) then v else sort_Strings v)
                <$> sent s !! k)
  ∧ let s := ledger_state false {[ "unknown" := ["e2"; "e1"] ]} ∅ in
    sample_manager false [sample_event "e2" None; sample_event "e1" None] []
    = Some s
    ∧ sent (GenerateReport s).1 = {[ "unknown" := ["e1"; "e2"] ]}
    ∧ sent (GenerateReport s).1 ≠ sent s.
Proof.
  split.
  - intros Metrics s ks Hks s'. split.
    + apply GenerateReport_in_frame.
    + intros k. unfold s'. by rewrite (GenerateReport_in_sent s ks Hks).
  - split_and!; [vm_compute; reflexivity | vm_compute; reflexivity |].
    intros Heq. apply (f_equal (λ m, m !! "unknown")) in Heq.
    vm_compute in Heq. discriminate.
Qed.

(** ** The diff *)

Lemma sample_Diff_empty x y : sample_Diff x y = "" ↔ x = y.
Proof. unfold sample_Diff. by case_decide. Qed.

Section DiffClaims.

Context {Metrics : Type}.
Variable cmp_Diff : option (list string) → option (list string) → string.
Implicit Types (s : StateManager (Metrics := Metrics)).
Implicit Types (ks : list string) (k : string).

(** [Diff] returns the empty string exactly when [cmp.Diff] returns it at
    every key of the sent ledger. *)
Lemma Diff_in_empty_iff ks s :
  range_order (sent s) ks →
  (Diff_in cmp_Diff ks s).2 = ""
  ↔ ∀ k, is_Some (sent s !! k) → diff_at cmp_Diff s k = "".
Proof.
  intros Hks. unfold Diff_in.
  pose proof (Diff_loop_inv cmp_Diff ks s
    ("Diff by partition key" +:+ newline) (range_order_NoDup _ _ Hks)) as H.
  destruct H as (_ & Hh & Ht).
  { intros k Hk. by apply (range_order_elem_of _ _ _ Hks). }
  destruct (foldl _ _ ks) as [[s' h] text]. simpl in *.
  destruct h.
  - split.
    + intros Hempty. exfalso. revert Hempty. rewrite Ht.
      by apply Diff_text_nonempty.
    + intros Hall. destruct (proj1 Hh eq_refl) as (k & Hk & Hd).
      exfalso. apply Hd, Hall. by apply (range_order_elem_of _ _ _ Hks).
  - split; [| done]. intros _ k Hk.
    destruct (decide (diff_at cmp_Diff s k = "")) as [| Hd]; [done |].
    exfalso. assert (false = true); [| done].
    apply Hh. exists k. split; [| done].
    by apply (range_order_elem_of _ _ _ Hks).
Qed.

(** The output of [Diff] depends on the received ledger at the keys of the
    sent ledger only. *)
Lemma Diff_in_ext ks s1 s2 :
  range_order (sent s1) ks →
  sent s1 = sent s2 →
  config s1 = config s2 →
  (∀ k, is_Some (sent s1 !! k) → received s1 !! k = received s2 !! k) →
  (Diff_in cmp_Diff ks s1).2 = (Diff_in cmp_Diff ks s2).2.
Proof.
  intros Hks Hsent Hcfg Hrecv. unfold Diff_in.
  pose proof (range_order_NoDup _ _ Hks) as Hnd.
  assert (∀ k, k ∈ ks → is_Some (sent s1 !! k)) as Hdom.
  { intros k Hk. by apply (range_order_elem_of _ _ _ Hks). }
  destruct (Diff_loop_inv cmp_Diff ks s1
    ("Diff by partition key" +:+ newline) Hnd Hdom) as (_ & Hh1 & Ht1).
  destruct (Diff_loop_inv cmp_Diff ks s2
    ("Diff by partition key" +:+ newline) Hnd) as (_ & Hh2 & Ht2).
  { intros k Hk. rewrite <- Hsent. by apply Hdom. }
  assert (∀ k, k ∈ ks → diff_at cmp_Diff s1 k = diff_at cmp_Diff s2 k)
    as Hd.
  { intros k Hk. unfold diff_at, clean_received, sent_view.
    by rewrite Hsent, Hcfg, (Hrecv k (Hdom k Hk)). }
  destruct (foldl _ (s1, _, _) ks) as [[s1' h1] t1].
  destruct (foldl _ (s2, _, _) ks) as [[s2' h2] t2]. simpl in *.
  assert (t1 = t2) as ->.
  { rewrite Ht1, Ht2. clear -Hd.
    generalize ("Diff by partition key" +:+ newline).
    induction ks as [| k ks IH] using rev_ind; intros hdr; [done |].
    rewrite !foldl_app. simpl. rewrite IH, Hd; [done | set_solver |].
    intros k' Hk'. apply Hd. set_solver. }
  assert (h1 = true ↔ h2 = true) as Hh.
  { rewrite Hh1, Hh2. split; intros (k & Hk & Hne); exists k;
      (split; [done |]); [by rewrite <- Hd | by rewrite Hd]. }
  destruct h1, h2; try done.
  - by assert (false = true) by by apply Hh.
  - by assert (true = false) by (symmetry; by apply Hh).
Qed.

(** The contract of [cmp.Diff]: the text is empty if and only if the two
    values are equal; a nil slice and an empty slice are not equal. *)
Hypothesis cmp_Diff_empty : ∀ x y, cmp_Diff x y = "" ↔ x = y.

(** C3.  [Diff] returns the empty string exactly when every key of the
    sent ledger has a received sequence whose first occurrences are the
    sent sequence: the same sequence in ordered mode, where the two are
    compared as they are; the same IDs with the same multiplicities, in
    any order, in unordered mode, where both are sorted before they are
    compared.  For a single partition with [e1, e2] sent and [e2, e1]
    received, [Diff] returns a non-empty string in ordered mode and the
    empty string in unordered mode. *)
Theorem Diff_order_sensitivity s ks :
  range_order (sent s) ks →
  ((Diff_in cmp_Diff ks s).2 = ""
   ↔ ∀ k v, sent s !! k = Some v →
       ∃ r, received s !! k = Some r
            ∧ if Ordered (config s)
              then first_occurrences r = v
              else first_occurrences r ≡ₚ v)
  ∧ (∀ k, sent s = {[ k := ["e1"; "e2"] ]} →
          received s !! k = Some ["e2"; "e1"] →
          if Ordered (config s)
          then (Diff_in cmp_Diff ks s).2 ≠ ""
          else (Diff_in cmp_Diff ks s).2 = "").
Proof.
  intros Hks.
  assert ((Diff_in cmp_Diff ks s).2 = ""
          ↔ ∀ k v, sent s !! k = Some v →
              ∃ r, received s !! k = Some r
                   ∧ if Ordered (config s)
                     then first_occurrences r = v
                     else first_occurrences r ≡ₚ v) as Hiff.
  { rewrite (Diff_in_empty_iff ks s Hks). split.
    - intros Hall k v Hv. specialize (Hall k (mk_is_Some _ _ Hv)).
      apply cmp_Diff_empty in Hall. revert Hall.
      unfold clean_received. rewrite (sent_view_lookup s k v Hv).
      unfold normalize. destruct (received s !! k) as [r |]; [| done].
      simpl. rewrite removeDuplicates_eq. simpl.
      intros [= Heq]. exists r. split; [done |].
      destruct (Ordered (config s)); [done |].
      by apply sort_Strings_eq_iff.
    - intros Hall k [v Hv]. destruct (Hall k v Hv) as (r & Hr & Heq).
      apply cmp_Diff_empty.
      unfold clean_received. rewrite (sent_view_lookup s k v Hv), Hr.
      unfold normalize. simpl. rewrite removeDuplicates_eq. simpl. f_equal.
      destruct (Ordered (config s)); [done |].
      by apply sort_Strings_eq_iff. }
  split; [done |]. intros k Hsent Hrecv.
  destruct (Ordered (config s)) eqn:Hord.
  - intros Hempty.
    destruct (proj1 Hiff Hempty k ["e1"; "e2"]) as (r & Hr & Heq).
    { by rewrite Hsent, lookup_singleton_eq. }
    rewrite Hrecv in Hr. injection Hr as <-. vm_compute in Heq. done.
  - apply (proj2 Hiff). intros k' v. rewrite Hsent.
    intros [<- <-]%lookup_singleton_Some.
    exists ["e2"; "e1"]. split; [done |].
    vm_compute. apply Permutation_swap.
Qed.

End DiffClaims.

Lemma Diff_order_sensitivity_witness :
  (Diff_in sample_Diff ["p1"]
     (ledger_state true {[ "p1" := ["e1"; "e2"] ]}
        {[ "p1" := ["e2"; "e1"] ]})).2 ≠ ""
  ∧ (Diff_in sample_Diff ["unknown"]
       (ledger_state false {[ "unknown" := ["e1"; "e2"] ]}
          {[ "unknown" := ["e2"; "e1"] ]})).2 = ""
  ∧ (Diff_in sample_Diff ["unknown"]
       (ledger_state false {[ "unknown" := ["e1"; "e2"] ]}
          {[ "unknown" := ["e2"; "e2"; "e1"] ]})).2 = ""
  ∧ (Diff_in sample_Diff ["unknown"]
       (ledger_state false {[ "unknown" := ["e1"; "e2"] ]}
          {[ "unknown" := ["e1"; "e3"] ]})).2 ≠ "".
Proof.
  split_and!.
  - assert (range_order
              (sent (ledger_state true {[ "p1" := ["e1"; "e2"] ]}
                       {[ "p1" := ["e2"; "e1"] ]})) ["p1"]) as Hks
      by (by vm_compute).
    exact (proj2 (Diff_order_sensitivity sample_Diff sample_Diff_empty
                    _ ["p1"] Hks) "p1" eq_refl eq_refl).
  - assert (range_order
              (sent (ledger_state false {[ "unknown" := ["e1"; "e2"] ]}
                       {[ "unknown" := ["e2"; "e1"] ]})) ["unknown"]) as Hks
      by (by vm_compute).
    exact (proj2 (Diff_order_sensitivity sample_Diff sample_Diff_empty
                    _ ["unknown"] Hks) "unknown" eq_refl eq_refl).
  - assert (range_order
              (sent (ledger_state false {[ "unknown" := ["e1"; "e2"] ]}
                       {[ "unknown" := ["e2"; "e2"; "e1"] ]})) ["unknown"])
      as Hks by (by vm_compute).
    apply (proj2 (proj1 (Diff_order_sensitivity sample_Diff
                           sample_Diff_empty _ ["unknown"] Hks))).
    simpl. intros k v [<- <-]%lookup_singleton_Some.
    exists ["e2"; "e2"; "e1"]. split; [done |].
    vm_compute. apply Permutation_swap.
  - assert (range_order
              (sent (ledger_state false {[ "unknown" := ["e1"; "e2"] ]}
                       {[ "unknown" := ["e1"; "e3"] ]})) ["unknown"])
      as Hks by (by vm_compute).
    intros Hempty.
    destruct (proj1 (proj1 (Diff_order_sensitivity sample_Diff
                              sample_Diff_empty _ ["unknown"] Hks))
                Hempty "unknown" ["e1"; "e2"] eq_refl)
      as (r & Hr & Hperm).
    injection Hr as <-. simpl in Hperm. vm_compute in Hperm.
    assert ("e3" ∈ ["e1"; "e2"]) as Hin
      by (rewrite <- Hperm; apply list_elem_of_further, list_elem_of_here).
    apply elem_of_cons in Hin as [Hin | Hin]; [done |].
    apply list_elem_of_singleton in Hin. done.
Defined.

(** ** Keys that only the received ledger has *)

Lemma sum_over_app f ks1 ks2 :
  sum_over f (ks1 ++ ks2) = (sum_over f ks1 + sum_over f ks2)%Z.
Proof.
  induction ks1 as [| k ks1 IH]; simpl; [done |]. rewrite IH. lia.
Qed.

(** The keys of a map, split by a test on the key. *)
Lemma keys_filter_split {V} (P : string → Prop) `{!∀ k, Decision (P k)}
    (m : gmap string V) :
  keys m
  ≡ₚ keys (filter (λ kv, P kv.1) m) ++ keys (filter (λ kv, ¬ P kv.1) m).
Proof.
  apply NoDup_Permutation.
  - apply NoDup_keys.
  - apply NoDup_app. split_and!; [apply NoDup_keys | | apply NoDup_keys].
    intros k. rewrite !elem_of_keys.
    intros [v1 Hv1] [v2 Hv2].
    apply map_lookup_filter_Some in Hv1 as [_ HP].
    apply map_lookup_filter_Some in Hv2 as [_ HnP]. done.
  - intros k. rewrite elem_of_app, !elem_of_keys. split.
    + intros [v Hv]. destruct (decide (P k)) as [HP | HnP].
      * left. exists v. by apply map_lookup_filter_Some.
      * right. exists v. by apply map_lookup_filter_Some.
    + intros [[v Hv] | [v Hv]]; apply map_lookup_filter_Some in Hv as [Hv _];
        by exists v.
Qed.

Section ReceivedOnly.

Context {Metrics : Type}.
Implicit Types (s : StateManager (Metrics := Metrics)).
Implicit Types (ks : list string) (k : string).

Lemma ReceivedCount_in_sum ks s :
  ReceivedCount_in ks s = sum_over (λ k, len (received s !!! k)) ks.
Proof.
  unfold ReceivedCount_in.
  induction ks as [| k ks IH] using rev_ind; [done |].
  rewrite foldl_app, sum_over_snoc. simpl. by rewrite IH.
Qed.

(** [ReceivedCount] does not depend on the order in which its loop visits
    the received ledger. *)
Lemma ReceivedCount_in_order ks s :
  range_order (received s) ks → ReceivedCount_in ks s = ReceivedCount s.
Proof.
  intros Hks. unfold ReceivedCount. rewrite !ReceivedCount_in_sum.
  by apply sum_over_perm.
Qed.

(** The report depends on the received ledger at the keys of the sent
    ledger only. *)
Lemma GenerateReport_in_ext ks s1 s2 :
  range_order (sent s1) ks →
  sent s1 = sent s2 →
  config s1 = config s2 →
  terminated s1 = terminated s2 →
  metrics s1 = metrics s2 →
  (∀ k, is_Some (sent s1 !! k) → received s1 !! k = received s2 !! k) →
  (GenerateReport_in ks s1).2 = (GenerateReport_in ks s2).2.
Proof.
  intros Hks Hsent Hcfg Hterm Hmet Hrecv.
  assert (range_order (sent s2) ks) as Hks2 by by rewrite <- Hsent.
  destruct (GenerateReport_in_spec ks s1 Hks)
    as (HL1 & HD1 & HR1 & HLc1 & HDc1 & HRc1).
  destruct (GenerateReport_in_spec ks s2 Hks2)
    as (HL2 & HD2 & HR2 & HLc2 & HDc2 & HRc2).
  destruct (GenerateReport_in_frame ks s1) as (_ & _ & _ & _ & Hm1 & Ht1).
  destruct (GenerateReport_in_frame ks s2) as (_ & _ & _ & _ & Hm2 & Ht2).
  assert (∀ k, is_Some (sent s1 !! k) →
            lost_view s1 k = lost_view s2 k
            ∧ duplicates_view s1 k = duplicates_view s2 k) as Hview.
  { intros k Hk.
    unfold lost_view, duplicates_view, clean_received, sent_view.
    by rewrite Hsent, Hcfg, (Hrecv k Hk). }
  assert (∀ k, k ∈ ks → is_Some (sent s1 !! k)) as Hdom.
  { intros k Hk. by apply (range_order_elem_of _ _ _ Hks). }
  destruct (GenerateReport_in ks s1) as [s1' r1].
  destruct (GenerateReport_in ks s2) as [s2' r2].
  destruct r1, r2. simpl in *. subst. f_equal.
  - apply sum_over_ext. intros k Hk. f_equal. by apply Hview, Hdom.
  - apply sum_over_ext. intros k Hk. f_equal. by apply Hview, Hdom.
  - by rewrite Hsent.
  - done.
  - apply map_eq. intros k. rewrite HL1, HL2, <- Hsent.
    destruct (sent s1 !! k) eqn:Hk; [simpl | done].
    f_equal. by apply Hview.
  - apply map_eq. intros k. rewrite HD1, HD2, <- Hsent.
    destruct (sent s1 !! k) eqn:Hk; [simpl | done].
    f_equal. by apply Hview.
  - apply map_eq. intros k. by rewrite HR1, HR2, Hsent, Hcfg.
  - done.
Qed.

Lemma drop_received_only_lookup s k :
  is_Some (sent s !! k) →
  received s !! k = received (drop_received_only s) !! k.
Proof.
  intros Hk. unfold drop_received_only. simpl.
  destruct (received s !! k) as [v |] eqn:Hv; symmetry.
  - by apply map_lookup_filter_Some.
  - apply map_lookup_filter_None. left. done.
Qed.

(** C8, as amended.  The keys that only the received ledger has contribute
    nothing to the output of [Diff] and nothing to the report of
    [GenerateReport], whose loops visit the keys of the sent ledger only:
    both are as on the manager without these keys.  The events under
    these keys are counted by the method [ReceivedCount], which visits the
    received ledger. *)
Theorem received_only_keys
    (cmp_Diff : option (list string) → option (list string) → string)
    s ks :
  range_order (sent s) ks →
  (Diff_in cmp_Diff ks s).2 = (Diff_in cmp_Diff ks (drop_received_only s)).2
  ∧ (GenerateReport_in ks s).2
    = (GenerateReport_in ks (drop_received_only s)).2
  ∧ ReceivedCount s
    = (ReceivedCount (drop_received_only s)
       + sum_over (λ k, len (received s !!! k)) (keys (received_only s)))%Z.
Proof.
  intros Hks. split_and!.
  - apply Diff_in_ext; try done. apply drop_received_only_lookup.
  - apply GenerateReport_in_ext; try done. apply drop_received_only_lookup.
  - unfold ReceivedCount. rewrite !ReceivedCount_in_sum.
    rewrite (sum_over_perm _ _ _
      (keys_filter_split (λ k, is_Some (sent s !! k)) (received s))).
    rewrite sum_over_app. f_equal.
    apply sum_over_ext. intros k Hk. f_equal.
    apply elem_of_keys in Hk as [v Hv].
    rewrite (lookup_total_correct _ _ _ Hv).
    apply map_lookup_filter_Some in Hv as [Hv _].
    by rewrite (lookup_total_correct _ _ _ Hv).
Qed.

End ReceivedOnly.

(** C8, as stated, fails: with nothing sent and [e9] received under [p2],
    the key [p2] is in the received ledger only and holds one event, which
    the method [ReceivedCount] counts; the report has no entry for [p2] and
    its ReceivedCount is 0. *)
Lemma received_only_not_in_report :
  let s := ledger_state true ∅ {[ "p2" := ["e9"] ]} in
  let r := (GenerateReport s).2 in
  sample_manager true [] [sample_event "e9" (Some "p2")] = Some s
  ∧ sent s !! "p2" = None
  ∧ received s !! "p2" = Some ["e9"]
  ∧ ReceivedCount s = 1%Z
  ∧ Report.ReceivedEventsByPartitionKey r !! "p2" = None
  ∧ Report.ReceivedCount r = 0%Z
  ∧ ¬ (ReceivedCount s ≤ Report.ReceivedCount r)%Z.
Proof.
  split_and!.
  1-6: (vm_compute; reflexivity).
  vm_compute. intros Hle. by apply Hle.
Qed.

Lemma received_only_keys_witness :
  let s := ledger_state true {[ "p1" := ["e1"] ]}
             {[ "p1" := ["e1"]; "p2" := ["e9"] ]} in
  range_order (sent s) ["p1"]
  ∧ (Diff_in sample_Diff ["p1"] s).2
    = (Diff_in sample_Diff ["p1"] (drop_received_only s)).2
  ∧ (GenerateReport_in ["p1"] s).2
    = (GenerateReport_in ["p1"] (drop_received_only s)).2
  ∧ ReceivedCount s
    = (ReceivedCount (drop_received_only s)
       + sum_over (λ k, len (received s !!! k)) (keys (received_only s)))%Z.
Proof.
  intros s.
  assert (range_order (sent s) ["p1"]) as Hks by (by vm_compute).
  split; [done |].
  exact (received_only_keys sample_Diff s ["p1"] Hks).
Defined.

(** ** Insertion *)

Lemma insert_appended pk id (store : gmap string (list string)) :
  appended_under pk id store (insert_append pk id (insert_create pk store)).
Proof.
  unfold appended_under, insert_append, insert_create. split.
  - rewrite lookup_insert_eq. f_equal. f_equal.
    destruct (store !! pk) as [v |] eqn:Hv; simpl.
    + by apply lookup_total_correct.
    + by rewrite lookup_total_insert_eq.
  - intros k Hne. rewrite lookup_insert_ne by done.
    destruct (store !! pk); [done |]. by rewrite lookup_insert_ne.
Qed.

Section Insertion.

Context {Metrics : Type}.
Implicit Types (s : StateManager (Metrics := Metrics)) (e : Event).

Lemma recorded_of_partitionKey e s pk :
  partitionKey e (config s) = pk → recorded e s pk.
Proof.
  intros Hpk. unfold recorded, recordSent, recordReceived, insert.
  rewrite Hpk. destruct pk as [pk |]; simpl; [| done]. split.
  - eexists. split; [done |]. simpl. split; [| done].
    apply insert_appended.
  - eexists. split; [done |]. simpl. split; [| done].
    apply insert_appended.
Qed.

(** C5.  [recordSent] and [recordReceived] append the ID of the event
    under the key "unknown" when ordered mode is off, whatever the
    attributes of the event, and when ordered mode is on and the event
    has no "partitionkey" attribute; under the attribute when ordered mode
    is on and the attribute is a string; when ordered mode is on and the
    attribute is not a string they panic and record nothing. *)
Theorem insert_partition_key e s :
  (Ordered (config s) = false → recorded e s (Some "unknown"))
  ∧ (Ordered (config s) = true →
     Extensions e !! "partitionkey" = None →
     recorded e s (Some "unknown"))
  ∧ (∀ pk, Ordered (config s) = true →
           Extensions e !! "partitionkey" = Some (ExtString pk) →
           recorded e s (Some pk))
  ∧ (∀ v, Ordered (config s) = true →
          Extensions e !! "partitionkey" = Some v →
          (∀ pk, v ≠ ExtString pk) →
          recorded e s None).
Proof.
  split_and!.
  - intros Hord. apply recorded_of_partitionKey.
    unfold partitionKey. by rewrite Hord.
  - intros Hord Hext. apply recorded_of_partitionKey.
    unfold partitionKey. by rewrite Hord, Hext.
  - intros pk Hord Hext. apply recorded_of_partitionKey.
    unfold partitionKey. by rewrite Hord, Hext.
  - intros v Hord Hext Hv. apply recorded_of_partitionKey.
    unfold partitionKey. rewrite Hord, Hext.
    destruct v as [str | | |]; simpl; try done. by destruct (Hv str).
Qed.

End Insertion.

(** ** Termination *)

Section Termination.

Context {Metrics : Type}.
Variable cmp_Diff : option (list string) → option (list string) → string.
Implicit Types (s : StateManager (Metrics := Metrics)).
Implicit Types (c : call (Metrics := Metrics)).

Lemma run_calls_cons s c cs :
  run_calls cmp_Diff s (c :: cs)
  = run_call cmp_Diff s c ≫= λ s', run_calls cmp_Diff s' cs.
Proof.
  unfold run_calls. simpl.
  destruct (run_call cmp_Diff s c) as [s' |]; [done |]. simpl.
  induction cs as [| c' cs IH]; [done |]. done.
Qed.

(** What a call keeps: the configuration, the flag once it is set, and
    the metrics if the call is not [Terminated]. *)
Lemma run_call_keeps s c s' :
  run_call cmp_Diff s c = Some s' →
  config s' = config s
  ∧ (terminated s = true → terminated s' = true)
  ∧ (is_terminate c = false → metrics s' = metrics s).
Proof.
  destruct c as [e | e | | | | m]; simpl.
  - unfold recordSent. destruct (insert e (sent s) (config s)); [| done].
    by intros [= <-].
  - unfold recordReceived.
    destruct (insert e (received s) (config s)); [| done].
    by intros [= <-].
  - by intros [= <-].
  - intros [= <-]. unfold Diff, Diff_in.
    destruct (Diff_loop_frame cmp_Diff (keys (sent s)) s
      (s, false, "Diff by partition key" +:+ newline) eq_refl)
      as (_ & Hc & Ht & Hm).
    destruct (foldl _ _ _) as [[s1 h] text]. simpl in *.
    rewrite Hc, Ht, Hm. done.
  - intros [= <-]. unfold GenerateReport.
    destruct (GenerateReport_in_frame (keys (sent s)) s)
      as (_ & Hc & Ht & Hm & _).
    rewrite Hc, Ht, Hm. done.
  - by intros [= <-].
Qed.

Lemma run_call_total s c :
  well_typed (config s) c → is_Some (run_call cmp_Diff s c).
Proof.
  destruct c as [e | e | | | | m]; simpl; try done.
  - intros [pk Hpk]. unfold recordSent, insert. by rewrite Hpk.
  - intros [pk Hpk]. unfold recordReceived, insert. by rewrite Hpk.
Qed.

Lemma run_calls_keeps cs s s' :
  run_calls cmp_Diff s cs = Some s' →
  config s' = config s
  ∧ (terminated s = true → terminated s' = true)
  ∧ (forallb (λ c, negb (is_terminate c)) cs = true →
     metrics s' = metrics s).
Proof.
  revert s. induction cs as [| c cs IH]; intros s.
  { by intros [= <-]. }
  rewrite run_calls_cons.
  destruct (run_call cmp_Diff s c) as [s1 |] eqn:Hc; [| done]. simpl.
  intros Hrun. destruct (IH s1 Hrun) as (Hcfg & Hterm & Hmet).
  destruct (run_call_keeps s c s1 Hc) as (Hcfg1 & Hterm1 & Hmet1).
  split_and!.
  - congruence.
  - auto.
  - intros [Hnt Hrest]%andb_prop. rewrite Hmet by done.
    apply Hmet1. by destruct (is_terminate c).
Qed.

Lemma run_calls_total cs s :
  Forall (well_typed (config s)) cs → is_Some (run_calls cmp_Diff s cs).
Proof.
  revert s. induction cs as [| c cs IH]; intros s Hwt; [done |].
  apply Forall_cons in Hwt as [Hc Hcs].
  rewrite run_calls_cons.
  destruct (run_call_total s c Hc) as [s1 Hs1]. rewrite Hs1. simpl.
  apply IH. destruct (run_call_keeps s c s1 Hs1) as (-> & _). done.
Qed.

(** C6.  After [Terminated(m)], whatever calls follow, the manager stays
    terminated and every report has Terminated = true: no call clears the
    flag.  If none of the calls that follow is [Terminated] again
    (insertions, counts, diffs and reports only), every report has
    Metrics = m.  The calls that follow run to their end when the events
    inserted have a partition key. *)
Theorem terminated_snapshot s m cs :
  (∀ s', run_calls cmp_Diff (Terminated m s) cs = Some s' →
     terminated s' = true
     ∧ (∀ ks, Report.Terminated (GenerateReport_in ks s').2 = true)
     ∧ (forallb (λ c, negb (is_terminate c)) cs = true →
        metrics s' = m
        ∧ ∀ ks, Report.Metrics (GenerateReport_in ks s').2 = m))
  ∧ (Forall (well_typed (config s)) cs →
     is_Some (run_calls cmp_Diff (Terminated m s) cs)).
Proof.
  split.
  - intros s' Hrun.
    destruct (run_calls_keeps cs _ s' Hrun) as (_ & Hterm & Hmet).
    simpl in Hterm, Hmet. specialize (Hterm eq_refl). split_and!.
    + done.
    + intros ks.
      destruct (GenerateReport_in_frame ks s') as (_ & _ & _ & _ & _ & ->).
      done.
    + intros Hnt. specialize (Hmet Hnt). split; [done |]. intros ks.
      destruct (GenerateReport_in_frame ks s') as (_ & _ & _ & _ & -> & _).
      done.
  - intros Hwt. by apply run_calls_total.
Qed.

End Termination.

Lemma insert_partition_key_witness :
  let s := ledger_state true ∅ ∅ in
  recorded (sample_event "e1" (Some "p1")) s (Some "p1")
  ∧ recorded (sample_event "e1" None) s (Some "unknown")
  ∧ recorded {| ID := "e1";
                Extensions := {[ "partitionkey" := ExtInt32 7 ]} |} s None
  ∧ recorded (sample_event "e1" (Some "p1")) (ledger_state false ∅ ∅)
      (Some "unknown").
Proof.
  intros s.
  destruct (insert_partition_key (sample_event "e1" (Some "p1")) s)
    as (_ & _ & Hstring & _).
  destruct (insert_partition_key (sample_event "e1" None) s)
    as (_ & Habsent & _).
  destruct (insert_partition_key
              {| ID := "e1";
                 Extensions := {[ "partitionkey" := ExtInt32 7 ]} |} s)
    as (_ & _ & _ & Hother).
  destruct (insert_partition_key (sample_event "e1" (Some "p1"))
              (ledger_state false ∅ ∅)) as (Hoff & _).
  split_and!.
  - by apply Hstring.
  - by apply Habsent.
  - by apply (Hother (ExtInt32 7)).
  - by apply Hoff.
Defined.

Lemma terminated_snapshot_witness :
  let cs := [CallRecordSent (sample_event "e2" None);
             CallGenerateReport;
             CallRecordReceived (sample_event "e1" None);
             CallDiff; CallReceivedCount] in
  ∃ s', run_calls sample_Diff (Terminated 7%Z (NewStateManager 0%Z
                                               {| Ordered := false |})) cs
        = Some s'
        ∧ Report.Terminated (GenerateReport s').2 = true
        ∧ Report.Metrics (GenerateReport s').2 = 7%Z.
Proof.
  intros cs.
  pose proof (terminated_snapshot sample_Diff
                (NewStateManager 0%Z {| Ordered := false |}) 7%Z cs)
    as [Hsnap Htotal].
  destruct Htotal as [s' Hs'].
  { unfold cs. repeat constructor; by eexists. }
  exists s'. split; [done |].
  destruct (Hsnap s' Hs') as (_ & Hterm & Hmet).
  split; [apply Hterm |]. by apply Hmet.
Defined.

(** ** The lock *)

(** The read lock does not exclude another holder of the read lock. *)
Lemma RLock_shared l : writer l = false → is_Some (RLock l).
Proof. unfold RLock. by intros ->. Qed.

(** The write lock excludes every other holder. *)
Lemma Lock_exclusive l l' :
  Lock l = Some l' → readers l = 0 ∧ RLock l' = None ∧ Lock l' = None.
Proof.
  unfold Lock, RLock. destruct l as [n w]. simpl.
  destruct w; [done |]. destruct n; [| done]. by intros [= <-].
Qed.

(** While the goroutine of [ReadSent] is anywhere in its closure, a caller
    of [GenerateReport] that asks for the read lock gets it. *)
Lemma reporter_not_excluded {Metrics} (c : conf (Metrics := Metrics)) :
  writer (lock c) = false →
  reporter c = ReportLock →
  ∃ c', step Reporter c = Some c'
        ∧ reporter c' = ReportBody
        ∧ ingest c' = ingest c
        ∧ readers (lock c') = S (readers (lock c)).
Proof.
  intros Hw Hpc. unfold step, RLock. rewrite Hpc, Hw. simpl.
  eexists. split; [done |]. done.
Qed.

(** C9.  The loop of [ReadSent] inserts under the read lock, which
    [GenerateReport] takes as well, so the two are not exclusive.  From a
    new manager in ordered mode, with the event [e1] of partition [p1] to
    insert: the ingestion goroutine takes the read lock and creates the
    entry of [p1]; the caller of [GenerateReport] takes the read lock too
    and runs the body.  Both then hold the lock, the insertion is half done,
    and the report shows [p1] with no event: the report neither of the
    ledger before the insertion nor of the ledger after it, with which the
    run ends. *)
Theorem report_during_insert :
  let s := NewStateManager tt {| Ordered := true |} in
  let e := sample_event "e1" (Some "p1") in
  ∃ c r,
    run_schedule (start s e) [Ingest; Ingest; Reporter; Reporter] = Some c
    ∧ readers (lock c) = 2
    ∧ ingest c = IngestAppend "p1"
    ∧ reporter c = ReportUnlock
    ∧ observed c = Some r
    ∧ Report.ReceivedEventsByPartitionKey r = {[ "p1" := [] ]}
    ∧ r ≠ (GenerateReport s).2
    ∧ ∃ s', recordSent e s = Some s'
            ∧ r ≠ (GenerateReport s').2
            ∧ run_schedule c [Ingest; Ingest; Reporter]
              = Some (mkConf s' {| readers := 0; writer := false |} e
                        IngestDone ReportDone (Some r)).
Proof.
  intros s e.
  let c := eval vm_compute in
      (run_schedule (start s e) [Ingest; Ingest; Reporter; Reporter]) in
  match c with Some ?c => exists c end.
  let r := eval vm_compute in
      ((GenerateReport (with_sent (insert_create "p1") s)).2) in
  exists r.
  split_and!.
  1-6: (vm_compute; reflexivity).
  - intros Heq.
    apply (f_equal (λ r, Report.ReceivedEventsByPartitionKey r !! "p1"))
      in Heq.
    vm_compute in Heq. discriminate.
  - let s' := eval vm_compute in (recordSent e s) in
    match s' with Some ?s' => exists s' end.
    split_and!.
    + vm_compute. reflexivity.
    + intros Heq.
      apply (f_equal (λ r, Report.ReceivedEventsByPartitionKey r !! "p1"))
        in Heq.
      vm_compute in Heq. discriminate.
    + vm_compute. reflexivity.
Qed.


(** * Further properties *)

(** ** The deduplicator: nothing dropped, nothing added *)

Lemma occurrences_partition a :
  a ≡ₚ first_occurrences a ++ repeat_occurrences a.
Proof.
  induction a as [| x a IH] using rev_ind; [done |].
  rewrite first_occurrences_snoc, repeat_occurrences_snoc.
  destruct (decide (x ∈ a)).
  - rewrite app_nil_r, (assoc_L (++)). by rewrite <- IH.
  - rewrite app_nil_r. rewrite IH at 1.
    rewrite <- !(assoc_L (++)). f_equiv. apply Permutation_app_comm.
Qed.

Lemma repeat_occurrences_elem_of a x : x ∈ repeat_occurrences a → x ∈ a.
Proof.
  intros Hx. eapply elem_of_sublist; [done | apply repeat_occurrences_sublist].
Qed.

(** X1.  [removeDuplicates] splits its input: the two sequences returned
    hold together exactly the entries of [a], with their multiplicities, so
    their lengths add up to the length of [a]; and every ID among the
    duplicates is among the first occurrences too. *)
Theorem removeDuplicates_partition (a : list string) :
  a ≡ₚ (removeDuplicates a).1 ++ (removeDuplicates a).2
  ∧ length (removeDuplicates a).1 + length (removeDuplicates a).2 = length a
  ∧ (∀ x, x ∈ (removeDuplicates a).2 → x ∈ (removeDuplicates a).1)
  ∧ length (removeDuplicates a).1 = size (list_to_set a : gset string).
Proof.
  rewrite removeDuplicates_eq. simpl.
  pose proof (occurrences_partition a) as Hp. split_and!.
  - done.
  - by rewrite Hp at 3; rewrite length_app.
  - intros x Hx. apply first_occurrences_elem_of.
    by apply repeat_occurrences_elem_of.
  - assert ((list_to_set a : gset string)
            = list_to_set (first_occurrences a)) as ->.
    { apply set_eq. intros x.
      by rewrite !elem_of_list_to_set, first_occurrences_elem_of. }
    symmetry. apply size_list_to_set, first_occurrences_NoDup.
Qed.

Lemma first_occurrences_NoDup_id a : NoDup a → first_occurrences a = a.
Proof.
  induction a as [| x a IH] using rev_ind; [done |].
  intros (Hnd & Hx & _)%NoDup_app.
  rewrite first_occurrences_snoc, IH by done.
  rewrite decide_False; [done |]. intros Hin. apply (Hx x Hin). set_solver.
Qed.

Lemma repeat_occurrences_NoDup_nil a : NoDup a → repeat_occurrences a = [].
Proof.
  induction a as [| x a IH] using rev_ind; [done |].
  intros (Hnd & Hx & _)%NoDup_app.
  rewrite repeat_occurrences_snoc, IH by done.
  rewrite decide_False; [done |]. intros Hin. apply (Hx x Hin). set_solver.
Qed.

(** Deduplicating the first occurrences again changes nothing. *)
Lemma removeDuplicates_idemp (a : list string) :
  removeDuplicates (removeDuplicates a).1 = ((removeDuplicates a).1, []).
Proof.
  rewrite !removeDuplicates_eq. simpl.
  pose proof (first_occurrences_NoDup a) as Hnd.
  by rewrite first_occurrences_NoDup_id, repeat_occurrences_NoDup_nil.
Qed.

(** X2.  An input without repeated ID comes back as it is, with no
    duplicate, and only such an input does; so deduplicating the first
    occurrences again changes nothing. *)
Theorem removeDuplicates_fixpoint (a : list string) :
  ((removeDuplicates a).2 = [] ↔ NoDup a)
  ∧ ((removeDuplicates a).1 = a ↔ NoDup a)
  ∧ removeDuplicates (removeDuplicates a).1 = ((removeDuplicates a).1, []).
Proof.
  split_and!; [| | apply removeDuplicates_idemp];
    rewrite removeDuplicates_eq; simpl.
  - split; [| apply repeat_occurrences_NoDup_nil].
    intros Hnil. pose proof (occurrences_partition a) as Hp.
    rewrite Hnil, app_nil_r in Hp. rewrite Hp.
    apply first_occurrences_NoDup.
  - split; [| apply first_occurrences_NoDup_id].
    intros <-. apply first_occurrences_NoDup.
Qed.

(** ** Insertion: the ledgers only grow *)

Lemma insert_lookup_total e (store store' : gmap string (list string)) config
    pk :
  partitionKey e config = Some pk →
  insert e store config = Some store' →
  ∀ k, store' !!! k
       = store !!! k ++ (if decide (pk = k) then [ID e] else []).
Proof.
  intros Hpk. unfold insert. rewrite Hpk. simpl. intros [= <-] k.
  destruct (insert_appended pk (ID e) store) as [Hat Hother].
  rewrite !lookup_total_alt. destruct (decide (pk = k)) as [<- | Hne].
  - by rewrite Hat.
  - rewrite Hother by done. by rewrite app_nil_r.
Qed.

Lemma insert_lookup_is_Some e (store store' : gmap string (list string))
    config pk :
  partitionKey e config = Some pk →
  insert e store config = Some store' →
  ∀ k, is_Some (store' !! k) ↔ is_Some (store !! k) ∨ pk = k.
Proof.
  intros Hpk. unfold insert. rewrite Hpk. simpl. intros [= <-] k.
  destruct (insert_appended pk (ID e) store) as [Hat Hother].
  destruct (decide (pk = k)) as [<- | Hne].
  - rewrite Hat. split; [by right | by eexists].
  - rewrite Hother by done. split; [by left | by intros [? | ?]].
Qed.

Lemma insert_keeps_nonempty e (store store' : gmap string (list string))
    config :
  insert e store config = Some store' →
  (∀ k v, store !! k = Some v → v ≠ []) →
  ∀ k v, store' !! k = Some v → v ≠ [].
Proof.
  intros Hins Hne k v Hv.
  destruct (partitionKey e config) as [pk |] eqn:Hpk;
    [| by unfold insert in Hins; rewrite Hpk in Hins].
  pose proof (insert_lookup_total e store store' config pk Hpk Hins k) as Ht.
  pose proof (insert_lookup_is_Some e store store' config pk Hpk Hins k)
    as Hs.
  rewrite (lookup_total_correct _ _ _ Hv) in Ht.
  destruct (decide (pk = k)) as [<- | Hk].
  - rewrite Ht. by destruct (store !!! pk).
  - rewrite app_nil_r in Ht. subst v.
    destruct (proj1 Hs (mk_is_Some _ _ Hv)) as [[w Hw] | ?]; [| done].
    rewrite (lookup_total_correct _ _ _ Hw). by eapply Hne.
Qed.

Lemma insert_unordered_key e (store store' : gmap string (list string))
    config :
  Ordered config = false →
  insert e store config = Some store' →
  (∀ k, is_Some (store !! k) → k = "unknown") →
  ∀ k, is_Some (store' !! k) → k = "unknown".
Proof.
  intros Hord Hins Hkeys k Hk.
  assert (partitionKey e config = Some "unknown") as Hpk
    by (unfold partitionKey; by rewrite Hord).
  apply (insert_lookup_is_Some e store store' config _ Hpk Hins) in Hk
    as [Hk | <-]; [by apply Hkeys | done].
Qed.

(** X3.  [insert] keeps what a ledger holds and never stores an empty
    sequence: after a successful insertion every key of the store is still
    a key, every sequence of the store is a prefix of the sequence now under
    its key, and if no sequence was empty before, none is empty after. *)
Theorem insert_grows e (store store' : gmap string (list string)) config :
  insert e store config = Some store' →
  (∀ k, is_Some (store !! k) → is_Some (store' !! k))
  ∧ (∀ k, store !!! k `prefix_of` store' !!! k)
  ∧ ((∀ k v, store !! k = Some v → v ≠ []) →
     ∀ k v, store' !! k = Some v → v ≠ []).
Proof.
  intros Hins.
  destruct (partitionKey e config) as [pk |] eqn:Hpk;
    [| by unfold insert in Hins; rewrite Hpk in Hins].
  pose proof (insert_lookup_total e store store' config pk Hpk Hins) as Ht.
  pose proof (insert_lookup_is_Some e store store' config pk Hpk Hins) as Hs.
  split_and!.
  - intros k Hk. apply Hs. by left.
  - intros k. rewrite Ht. by apply prefix_app_r.
  - by apply (insert_keeps_nonempty e store store' config).
Qed.

Lemma insert_grows_witness :
  let store : gmap string (list string) := {[ "unknown" := ["e1"] ]} in
  let store' : gmap string (list string) :=
    {[ "unknown" := ["e1"; "e2"] ]} in
  insert (sample_event "e2" None) store {| Ordered := false |} = Some store'
  ∧ store !!! "unknown" `prefix_of` store' !!! "unknown"
  ∧ store' !! "unknown" ≠ Some [].
Proof.
  intros store store'.
  assert (insert (sample_event "e2" None) store {| Ordered := false |}
          = Some store') as Hins by (vm_compute; reflexivity).
  split; [done |].
  destruct (insert_grows _ _ _ _ Hins) as (_ & Hprefix & Hnonempty).
  split; [apply Hprefix |].
  intros Hempty. apply (Hnonempty) in Hempty; [done |].
  intros k v [<- <-]%lookup_singleton_Some. done.
Defined.

(** X4.  Insertions under different partition keys do not disturb each
    other: the two insertions give the same store in either order. *)
Theorem insert_commute e1 e2 (store : gmap string (list string)) config
    pk1 pk2 :
  partitionKey e1 config = Some pk1 →
  partitionKey e2 config = Some pk2 →
  pk1 ≠ pk2 →
  (insert e1 store config ≫= λ st, insert e2 st config)
  = (insert e2 store config ≫= λ st, insert e1 st config).
Proof.
  intros H1 H2 Hne. unfold insert. rewrite H1, H2. simpl. f_equal.
  apply map_eq. intros k.
  unfold insert_append, insert_create.
  destruct (decide (k = pk1)) as [-> | Hk1];
    [| destruct (decide (k = pk2)) as [-> | Hk2]].
  - destruct (store !! pk1) eqn:E1, (store !! pk2) eqn:E2;
      repeat (first [ rewrite lookup_insert_eq
                    | rewrite lookup_insert_ne by done
                    | rewrite lookup_total_insert_eq
                    | rewrite lookup_total_insert_ne by done
                    | rewrite E1 | rewrite E2 ]); done.
  - destruct (store !! pk1) eqn:E1, (store !! pk2) eqn:E2;
      repeat (first [ rewrite lookup_insert_eq
                    | rewrite lookup_insert_ne by done
                    | rewrite lookup_total_insert_eq
                    | rewrite lookup_total_insert_ne by done
                    | rewrite E1 | rewrite E2 ]); done.
  - destruct (store !! pk1) eqn:E1, (store !! pk2) eqn:E2;
      repeat (first [ rewrite lookup_insert_eq
                    | rewrite lookup_insert_ne by done
                    | rewrite lookup_total_insert_eq
                    | rewrite lookup_total_insert_ne by done
                    | rewrite E1 | rewrite E2 ]); done.
Qed.

Lemma insert_commute_witness :
  (insert (sample_event "e1" (Some "p1")) ∅ {| Ordered := true |}
   ≫= λ st, insert (sample_event "e2" (Some "p2")) st {| Ordered := true |})
  = (insert (sample_event "e2" (Some "p2")) ∅ {| Ordered := true |}
     ≫= λ st, insert (sample_event "e1" (Some "p1")) st
                {| Ordered := true |}).
Proof.
  apply (insert_commute _ _ _ _ "p1" "p2");
    [vm_compute; reflexivity | vm_compute; reflexivity | done].
Defined.

(** ** The ingestion loops *)

Section Ingestion.

Context {Metrics : Type}.
Implicit Types (s : StateManager (Metrics := Metrics)) (e : Event).
Implicit Types (es : list Event) (k : string).

Lemma ReadSent_snoc es e s :
  ReadSent (es ++ [e]) s = ReadSent es s ≫= recordSent e.
Proof. unfold ReadSent. by rewrite foldl_app. Qed.

Lemma ReadReceived_snoc es e s :
  ReadReceived (es ++ [e]) s = ReadReceived es s ≫= recordReceived e.
Proof. unfold ReadReceived. by rewrite foldl_app. Qed.

(** The IDs of the events of [es] that go under the key [k], in the order
    of [es]. *)
Local Abbreviation ids_under config k es :=
  (ID <$> filter (λ e, partitionKey e config = Some k) es).

Lemma recordSent_inv e s s' :
  recordSent e s = Some s' →
  ∃ pk, partitionKey e (config s) = Some pk
        ∧ received s' = received s ∧ config s' = config s
        ∧ terminated s' = terminated s ∧ metrics s' = metrics s
        ∧ (∀ k, sent s' !!! k
                = sent s !!! k ++ (if decide (pk = k) then [ID e] else []))
        ∧ (∀ k, is_Some (sent s' !! k) ↔ is_Some (sent s !! k) ∨ pk = k).
Proof.
  unfold recordSent.
  destruct (insert e (sent s) (config s)) as [store |] eqn:Hins; [| done].
  simpl. intros [= <-]. simpl.
  destruct (partitionKey e (config s)) as [pk |] eqn:Hpk;
    [| by unfold insert in Hins; rewrite Hpk in Hins].
  exists pk. split_and!; try done.
  - by apply (insert_lookup_total e _ _ (config s)).
  - by apply (insert_lookup_is_Some e _ _ (config s)).
Qed.

Lemma recordReceived_inv e s s' :
  recordReceived e s = Some s' →
  ∃ pk, partitionKey e (config s) = Some pk
        ∧ sent s' = sent s ∧ config s' = config s
        ∧ terminated s' = terminated s ∧ metrics s' = metrics s
        ∧ (∀ k, received s' !!! k
                = received s !!! k
                  ++ (if decide (pk = k) then [ID e] else []))
        ∧ (∀ k, is_Some (received s' !! k)
                ↔ is_Some (received s !! k) ∨ pk = k).
Proof.
  unfold recordReceived.
  destruct (insert e (received s) (config s)) as [store |] eqn:Hins;
    [| done].
  simpl. intros [= <-]. simpl.
  destruct (partitionKey e (config s)) as [pk |] eqn:Hpk;
    [| by unfold insert in Hins; rewrite Hpk in Hins].
  exists pk. split_and!; try done.
  - by apply (insert_lookup_total e _ _ (config s)).
  - by apply (insert_lookup_is_Some e _ _ (config s)).
Qed.

Lemma ids_under_snoc config k es e pk :
  partitionKey e config = Some pk →
  ids_under config k (es ++ [e])
  = ids_under config k es ++ (if decide (pk = k) then [ID e] else []).
Proof.
  intros Hpk. rewrite filter_app, fmap_app. f_equal.
  rewrite filter_cons, filter_nil, Hpk.
  destruct (decide (pk = k)) as [-> | Hne].
  - by rewrite decide_True.
  - rewrite decide_False; [done | congruence].
Qed.

(** X5.  When the loop of [ReadSent] has drained the events [es] without a
    panic, the sent sequence of every key is what it was, followed by the
    IDs of the events of [es] that belong to the key, in the order in which
    the channel delivered them; a key is in the sent ledger if it was there
    or if an event of [es] belongs to it; the received ledger, the
    configuration, the flag and the metrics are untouched. *)
Theorem ReadSent_per_key es s s' :
  ReadSent es s = Some s' →
  received s' = received s
  ∧ config s' = config s
  ∧ terminated s' = terminated s
  ∧ metrics s' = metrics s
  ∧ (∀ k, sent s' !!! k = sent s !!! k ++ ids_under (config s) k es)
  ∧ (∀ k, is_Some (sent s' !! k)
          ↔ is_Some (sent s !! k)
            ∨ ∃ e, e ∈ es ∧ partitionKey e (config s) = Some k).
Proof.
  revert s'. induction es as [| e es IH] using rev_ind; intros s'.
  { intros [= <-]. split_and!; try done.
    - intros k. by rewrite app_nil_r.
    - intros k. split; [by left |]. intros [? | (e & He & _)]; [done |].
      set_solver. }
  rewrite ReadSent_snoc.
  destruct (ReadSent es s) as [s1 |] eqn:Hs1; [| done]. simpl.
  intros Hrec. destruct (IH s1 eq_refl) as (Hr & Hc & Ht & Hm & Hl & Hd).
  destruct (recordSent_inv e s1 s' Hrec)
    as (pk & Hpk & Hr' & Hc' & Ht' & Hm' & Hl' & Hd').
  rewrite Hc in Hpk.
  split_and!; try congruence.
  - intros k. rewrite Hl', Hl, (ids_under_snoc _ _ _ _ pk Hpk).
    by rewrite (assoc_L (++)).
  - intros k. rewrite Hd', Hd. split.
    + intros [[? | (e' & He' & Hk')] | <-].
      * by left.
      * right. exists e'. set_solver.
      * right. exists e. set_solver.
    + intros [? | (e' & He' & Hk')]; [by left; left |].
      apply elem_of_app in He' as [He' | He'].
      * left. right. by exists e'.
      * apply list_elem_of_singleton in He' as ->. right. congruence.
Qed.

(** X6.  The same for the loop of [ReadReceived] and the received ledger:
    each received sequence is what it was, followed by the IDs of the
    events drained that belong to its key, in the order delivered; the sent
    ledger, the configuration, the flag and the metrics are untouched. *)
Theorem ReadReceived_per_key es s s' :
  ReadReceived es s = Some s' →
  sent s' = sent s
  ∧ config s' = config s
  ∧ terminated s' = terminated s
  ∧ metrics s' = metrics s
  ∧ (∀ k, received s' !!! k
          = received s !!! k ++ ids_under (config s) k es)
  ∧ (∀ k, is_Some (received s' !! k)
          ↔ is_Some (received s !! k)
            ∨ ∃ e, e ∈ es ∧ partitionKey e (config s) = Some k).
Proof.
  revert s'. induction es as [| e es IH] using rev_ind; intros s'.
  { intros [= <-]. split_and!; try done.
    - intros k. by rewrite app_nil_r.
    - intros k. split; [by left |]. intros [? | (e & He & _)]; [done |].
      set_solver. }
  rewrite ReadReceived_snoc.
  destruct (ReadReceived es s) as [s1 |] eqn:Hs1; [| done]. simpl.
  intros Hrec. destruct (IH s1 eq_refl) as (Hr & Hc & Ht & Hm & Hl & Hd).
  destruct (recordReceived_inv e s1 s' Hrec)
    as (pk & Hpk & Hr' & Hc' & Ht' & Hm' & Hl' & Hd').
  rewrite Hc in Hpk.
  split_and!; try congruence.
  - intros k. rewrite Hl', Hl, (ids_under_snoc _ _ _ _ pk Hpk).
    by rewrite (assoc_L (++)).
  - intros k. rewrite Hd', Hd. split.
    + intros [[? | (e' & He' & Hk')] | <-].
      * by left.
      * right. exists e'. set_solver.
      * right. exists e. set_solver.
    + intros [? | (e' & He' & Hk')]; [by left; left |].
      apply elem_of_app in He' as [He' | He'].
      * left. right. by exists e'.
      * apply list_elem_of_singleton in He' as ->. right. congruence.
Qed.


Lemma ReadSent_config es s s' : ReadSent es s = Some s' → config s' = config s.
Proof.
  revert s'. induction es as [| e es IH] using rev_ind; intros s'.
  { by intros [= <-]. }
  rewrite ReadSent_snoc.
  destruct (ReadSent es s) as [s1 |]; [| done]. simpl. intros Hrec.
  destruct (recordSent_inv e s1 s' Hrec) as (_ & _ & _ & -> & _).
  by apply IH.
Qed.

Lemma ReadReceived_config es s s' :
  ReadReceived es s = Some s' → config s' = config s.
Proof.
  revert s'. induction es as [| e es IH] using rev_ind; intros s'.
  { by intros [= <-]. }
  rewrite ReadReceived_snoc.
  destruct (ReadReceived es s) as [s1 |]; [| done]. simpl. intros Hrec.
  destruct (recordReceived_inv e s1 s' Hrec) as (_ & _ & _ & -> & _).
  by apply IH.
Qed.

(** When the head of [insert] panics. *)
Lemma partitionKey_None e config :
  partitionKey e config = None
  ↔ Ordered config = true
    ∧ ∃ v, Extensions e !! "partitionkey" = Some v
           ∧ ∀ str, v ≠ ExtString str.
Proof.
  unfold partitionKey. destruct (Ordered config).
  - destruct (Extensions e !! "partitionkey") as [v |]; split.
    + intros Hv. split; [done |]. exists v. split; [done |].
      intros str ->. done.
    + intros (_ & v' & [= <-] & Hv). destruct v as [str | | |]; try done.
      by destruct (Hv str).
    + done.
    + by intros (_ & v & ? & _).
  - split; [done | by intros [? _]].
Qed.

(** X7.  The loops of [ReadSent] and [ReadReceived] panic exactly when
    ordered mode is on and one of the events drained carries a
    "partitionkey" attribute that is not a string; in unordered mode, and
    on events whose attribute is absent or a string, they never panic. *)
Theorem ingestion_panics es s :
  (ReadSent es s = None
   ↔ Ordered (config s) = true
     ∧ ∃ e v, e ∈ es ∧ Extensions e !! "partitionkey" = Some v
              ∧ ∀ str, v ≠ ExtString str)
  ∧ (ReadReceived es s = None
     ↔ Ordered (config s) = true
       ∧ ∃ e v, e ∈ es ∧ Extensions e !! "partitionkey" = Some v
                ∧ ∀ str, v ≠ ExtString str).
Proof.
  assert ((Ordered (config s) = true
           ∧ ∃ e v, e ∈ es ∧ Extensions e !! "partitionkey" = Some v
                    ∧ ∀ str, v ≠ ExtString str)
          ↔ ∃ e, e ∈ es ∧ partitionKey e (config s) = None) as Hiff.
  { split.
    - intros (Hord & e & v & He & Hv & Hns). exists e. split; [done |].
      apply partitionKey_None. eauto.
    - intros (e & He & Hpk). apply partitionKey_None in Hpk
        as (Hord & v & Hv & Hns). eauto 10. }
  rewrite Hiff. clear Hiff. split.
  - induction es as [| e es IH] using rev_ind.
    { split; [done |]. intros (e & He & _). set_solver. }
    rewrite ReadSent_snoc.
    destruct (ReadSent es s) as [s1 |] eqn:Hs1; simpl.
    + unfold recordSent, insert.
      rewrite (ReadSent_config es s s1 Hs1).
      destruct (partitionKey e (config s)) as [pk |] eqn:Hpk; simpl; split.
      * done.
      * intros (e' & He' & Hpk').
        apply elem_of_app in He' as [He' | He'].
        -- assert (Some s1 = None); [| done]. apply IH. eauto.
        -- apply list_elem_of_singleton in He' as ->. congruence.
      * intros _. exists e. set_solver.
      * done.
    + split; [| done]. intros _.
      destruct (proj1 IH eq_refl) as (e' & He' & Hpk'). exists e'. set_solver.
  - induction es as [| e es IH] using rev_ind.
    { split; [done |]. intros (e & He & _). set_solver. }
    rewrite ReadReceived_snoc.
    destruct (ReadReceived es s) as [s1 |] eqn:Hs1; simpl.
    + unfold recordReceived, insert.
      rewrite (ReadReceived_config es s s1 Hs1).
      destruct (partitionKey e (config s)) as [pk |] eqn:Hpk; simpl; split.
      * done.
      * intros (e' & He' & Hpk').
        apply elem_of_app in He' as [He' | He'].
        -- assert (Some s1 = None); [| done]. apply IH. eauto.
        -- apply list_elem_of_singleton in He' as ->. congruence.
      * intros _. exists e. set_solver.
      * done.
    + split; [| done]. intros _.
      destruct (proj1 IH eq_refl) as (e' & He' & Hpk'). exists e'. set_solver.
Qed.


(** X8.  In unordered mode the loops never panic and every event goes under
    the key "unknown", whatever its attributes: the sequence of "unknown"
    is what it was, followed by the IDs of all the events drained, in
    order, and no other entry of the ledger changes. *)
Theorem unordered_fallback es s :
  Ordered (config s) = false →
  (∃ s', ReadSent es s = Some s'
         ∧ sent s' !!! "unknown" = sent s !!! "unknown" ++ (ID <$> es)
         ∧ ∀ k, k ≠ "unknown" → sent s' !! k = sent s !! k)
  ∧ (∃ s', ReadReceived es s = Some s'
           ∧ received s' !!! "unknown"
             = received s !!! "unknown" ++ (ID <$> es)
           ∧ ∀ k, k ≠ "unknown" → received s' !! k = received s !! k).
Proof.
  intros Hord.
  assert (∀ e, partitionKey e (config s) = Some "unknown") as Hpk.
  { intros e. unfold partitionKey. by rewrite Hord. }
  split.
  - induction es as [| e es IH] using rev_ind.
    { exists s. split_and!; [done | by rewrite app_nil_r | done]. }
    destruct IH as (s1 & Hs1 & Hu & Ho).
    rewrite ReadSent_snoc, Hs1. simpl.
    unfold recordSent, insert.
    rewrite (ReadSent_config es s s1 Hs1), Hpk. simpl.
    eexists. split; [done |]. simpl.
    destruct (insert_appended "unknown" (ID e) (sent s1)) as [Hat Hother].
    split.
    + rewrite lookup_total_alt, Hat, fmap_app, (assoc_L (++)), <- Hu.
      by rewrite lookup_total_alt.
    + intros k Hk. rewrite Hother by done. by apply Ho.
  - induction es as [| e es IH] using rev_ind.
    { exists s. split_and!; [done | by rewrite app_nil_r | done]. }
    destruct IH as (s1 & Hs1 & Hu & Ho).
    rewrite ReadReceived_snoc, Hs1. simpl.
    unfold recordReceived, insert.
    rewrite (ReadReceived_config es s s1 Hs1), Hpk. simpl.
    eexists. split; [done |]. simpl.
    destruct (insert_appended "unknown" (ID e) (received s1))
      as [Hat Hother].
    split.
    + rewrite lookup_total_alt, Hat, fmap_app, (assoc_L (++)), <- Hu.
      by rewrite lookup_total_alt.
    + intros k Hk. rewrite Hother by done. by apply Ho.
Qed.

(** The loop of [ReadSent] works on the sent ledger alone. *)
Lemma ReadSent_store es s :
  ReadSent es s
  = (λ store, with_sent (λ _, store) s)
      <$> foldl (λ acc e, acc ≫= λ store, insert e store (config s))
            (Some (sent s)) es.
Proof.
  induction es as [| e es IH] using rev_ind.
  { simpl. by destruct s. }
  rewrite ReadSent_snoc, foldl_app, IH. simpl.
  destruct (foldl _ _ es) as [store |]; [| done]. simpl.
  unfold recordSent. simpl.
  by destruct (insert e store (config s)).
Qed.

(** The loop of [ReadReceived] works on the received ledger alone. *)
Lemma ReadReceived_store es s :
  ReadReceived es s
  = (λ store, with_received (λ _, store) s)
      <$> foldl (λ acc e, acc ≫= λ store, insert e store (config s))
            (Some (received s)) es.
Proof.
  induction es as [| e es IH] using rev_ind.
  { simpl. by destruct s. }
  rewrite ReadReceived_snoc, foldl_app, IH. simpl.
  destruct (foldl _ _ es) as [store |]; [| done]. simpl.
  unfold recordReceived. simpl.
  by destruct (insert e store (config s)).
Qed.

(** X9.  The two ingestion loops work on different ledgers: draining the
    sent events and then the received events leaves the manager as
    draining the received events and then the sent events does, and the
    one order panics when the other does. *)
Theorem ingestion_loops_commute es1 es2 s :
  (ReadSent es1 s ≫= ReadReceived es2)
  = (ReadReceived es2 s ≫= ReadSent es1).
Proof.
  rewrite (ReadSent_store es1 s), (ReadReceived_store es2 s).
  destruct (foldl _ (Some (sent s)) es1) as [st1 |] eqn:H1;
    destruct (foldl _ (Some (received s)) es2) as [st2 |] eqn:H2; simpl.
  - rewrite ReadSent_store, ReadReceived_store. simpl.
    by rewrite H1, H2.
  - rewrite ReadReceived_store. simpl. by rewrite H2.
  - rewrite ReadSent_store. simpl. by rewrite H1.
  - done.
Qed.

End Ingestion.

Lemma ReadSent_per_key_witness :
  ∃ s', ReadSent [sample_event "e1" (Some "p1");
                  sample_event "e2" (Some "p2");
                  sample_event "e3" (Some "p1")]
          (ledger_state true ∅ ∅) = Some s'
        ∧ sent s' !!! "p1" = ["e1"; "e3"]
        ∧ sent s' !!! "p2" = ["e2"].
Proof.
  destruct (ReadSent _ (ledger_state true ∅ ∅)) as [s' |] eqn:Hrun;
    [| by vm_compute in Hrun].
  exists s'. split; [done |].
  destruct (ReadSent_per_key _ _ _ Hrun) as (_ & _ & _ & _ & Hk & _).
  split; rewrite Hk; vm_compute; reflexivity.
Defined.

Lemma ReadReceived_per_key_witness :
  ∃ s', ReadReceived [sample_event "e1" (Some "p1");
                      sample_event "e1" (Some "p1");
                      sample_event "e2" None]
          (ledger_state true ∅ ∅) = Some s'
        ∧ received s' !!! "p1" = ["e1"; "e1"]
        ∧ received s' !!! "unknown" = ["e2"].
Proof.
  destruct (ReadReceived _ (ledger_state true ∅ ∅)) as [s' |] eqn:Hrun;
    [| by vm_compute in Hrun].
  exists s'. split; [done |].
  destruct (ReadReceived_per_key _ _ _ Hrun) as (_ & _ & _ & _ & Hk & _).
  split; rewrite Hk; vm_compute; reflexivity.
Defined.

Lemma unordered_fallback_witness :
  ∃ s', ReadSent [sample_event "e1" (Some "p1"); sample_event "e2" None]
          (ledger_state false ∅ ∅) = Some s'
        ∧ sent s' !!! "unknown" = ["e1"; "e2"]
        ∧ sent s' !! "p1" = None.
Proof.
  destruct (unordered_fallback
              [sample_event "e1" (Some "p1"); sample_event "e2" None]
              (ledger_state false ∅ ∅) eq_refl)
    as [(s' & Hrun & Hu & Ho) _].
  exists s'. split; [done |]. split; [by rewrite Hu |].
  by rewrite Ho.
Defined.

(** ** The count of the received events *)

Lemma keys_insert_fresh {V} (m : gmap string V) k v :
  m !! k = None → keys (<[k := v]> m) ≡ₚ k :: keys m.
Proof.
  intros Hk. unfold keys. by rewrite map_to_list_insert.
Qed.

(** The sum of the lengths of the sequences of a ledger. *)
Local Abbreviation total m := (sum_over (λ k, len (m !!! k)) (keys m)).

Lemma total_delete (m : gmap string (list string)) k :
  total m = (len (m !!! k) + total (delete k m))%Z.
Proof.
  assert (sum_over (λ k', len (m !!! k')) (keys (delete k m))
          = total (delete k m)) as Hrest.
  { apply sum_over_ext. intros k' Hk'. apply elem_of_keys in Hk' as [v Hv].
    apply lookup_delete_Some in Hv as [Hne Hv].
    by rewrite !lookup_total_alt, lookup_delete_ne. }
  destruct (m !! k) as [w |] eqn:Hw.
  - assert (keys m ≡ₚ k :: keys (delete k m)) as Hperm.
    { pose proof (keys_insert_fresh (delete k m) k w (lookup_delete_eq m k))
        as Hp.
      by rewrite (insert_delete_id m k w Hw) in Hp. }
    rewrite (sum_over_perm _ _ _ Hperm). simpl. by rewrite Hrest.
  - rewrite delete_id by done.
    rewrite lookup_total_alt, Hw. unfold len. simpl. lia.
Qed.

Lemma total_insert (m : gmap string (list string)) k v :
  total (<[k := v]> m) = (total m - len (m !!! k) + len v)%Z.
Proof.
  rewrite (total_delete (<[k := v]> m) k), (total_delete m k).
  rewrite lookup_total_insert_eq, delete_insert_eq. lia.
Qed.

Lemma insert_as_one_write e (store : gmap string (list string)) pk :
  insert_append pk (ID e) (insert_create pk store)
  = <[pk := store !!! pk ++ [ID e]]> store.
Proof.
  unfold insert_append, insert_create.
  destruct (store !! pk) as [v |] eqn:Hv; [done |].
  rewrite lookup_total_insert_eq, insert_insert_eq.
  by rewrite lookup_total_alt, Hv.
Qed.

Section Count.

Context {Metrics : Type}.
Implicit Types (s : StateManager (Metrics := Metrics)) (e : Event).
Implicit Types (es : list Event) (k : string).

Lemma ReceivedCount_total s : ReceivedCount s = total (received s).
Proof. unfold ReceivedCount. apply ReceivedCount_in_sum. Qed.

Lemma ReceivedCount_recordReceived e s s' :
  recordReceived e s = Some s' →
  ReceivedCount s' = (ReceivedCount s + 1)%Z.
Proof.
  unfold recordReceived, insert.
  destruct (partitionKey e (config s)) as [pk |]; [| done]. simpl.
  intros [= <-]. rewrite !ReceivedCount_total. simpl.
  rewrite insert_as_one_write, total_insert.
  unfold len. rewrite length_app. simpl. lia.
Qed.

Lemma ReceivedCount_recordSent e s s' :
  recordSent e s = Some s' → ReceivedCount s' = ReceivedCount s.
Proof.
  unfold recordSent. destruct (insert e (sent s) (config s)); [| done].
  by intros [= <-].
Qed.

(** X10.  [ReceivedCount] counts the insertions of the received loop and
    nothing else: when the loops have drained their events without a
    panic, the count has grown by the number of the events received,
    whatever their keys and whatever was sent; and the count is the same
    in whatever order the method visits the received ledger. *)
Theorem ReceivedCount_counts_received es_sent es_received s s' ks :
  ReadSent es_sent s ≫= ReadReceived es_received = Some s' →
  range_order (received s') ks →
  ReceivedCount_in ks s' = (ReceivedCount s + len es_received)%Z.
Proof.
  intros Hrun Hks. rewrite (ReceivedCount_in_order ks s' Hks).
  destruct (ReadSent es_sent s) as [s1 |] eqn:Hs1; [| done].
  simpl in Hrun.
  assert (ReceivedCount s1 = ReceivedCount s) as <-.
  { clear Hrun. revert s1 Hs1.
    induction es_sent as [| e es IH] using rev_ind; intros s1.
    { by intros [= <-]. }
    unfold ReadSent. rewrite foldl_app. simpl.
    fold (ReadSent es s).
    destruct (ReadSent es s) as [s0 |]; [| done]. simpl. intros Hrec.
    rewrite (ReceivedCount_recordSent e s0 s1 Hrec). by apply IH. }
  clear Hs1 Hks. revert s' Hrun.
  induction es_received as [| e es IH] using rev_ind; intros s'.
  { intros [= <-]. unfold len. simpl. lia. }
  unfold ReadReceived. rewrite foldl_app. simpl.
  fold (ReadReceived es s1).
  destruct (ReadReceived es s1) as [s0 |]; [| done]. simpl. intros Hrec.
  rewrite (ReceivedCount_recordReceived e s0 s' Hrec), (IH s0 eq_refl).
  unfold len. rewrite length_app. simpl. lia.
Qed.

End Count.

Lemma ReceivedCount_counts_received_witness :
  ∃ s', sample_manager true [sample_event "e1" (Some "p1")]
          [sample_event "e1" (Some "p1"); sample_event "e1" (Some "p1");
           sample_event "e9" (Some "p2")] = Some s'
        ∧ ReceivedCount_in ["p2"; "p1"] s' = 3%Z.
Proof.
  destruct (sample_manager true _ _) as [s' |] eqn:Hrun;
    [| by vm_compute in Hrun].
  exists s'. split; [done |].
  assert (range_order (received s') ["p2"; "p1"]) as Hks.
  { vm_compute in Hrun. injection Hrun as <-. vm_compute.
    apply Permutation_swap. }
  unfold sample_manager in Hrun.
  by rewrite (ReceivedCount_counts_received _ _ _ _ _ Hrun Hks).
Defined.

(** ** The report: order of the visit, repeated calls, duplicates *)

Lemma sum_over_zero f ks :
  (∀ k, 0 ≤ f k)%Z →
  sum_over f ks = 0%Z ↔ ∀ k, k ∈ ks → f k = 0%Z.
Proof.
  intros Hf. induction ks as [| k ks IH]; simpl.
  - split; [| done]. intros _ k Hk. set_solver.
  - pose proof (sum_over_nonneg f ks Hf) as Hnn. pose proof (Hf k) as Hk.
    split.
    + intros Hsum k' [-> | Hk']%elem_of_cons; [lia |].
      apply IH; [lia | done].
    + intros Hall. rewrite (Hall k) by set_solver.
      rewrite (proj2 IH); [done |]. intros k' Hk'. apply Hall. set_solver.
Qed.

Lemma sum_over_le f g ks :
  (∀ k, k ∈ ks → f k ≤ g k)%Z → (sum_over f ks ≤ sum_over g ks)%Z.
Proof.
  induction ks as [| k ks IH]; intros Hfg; simpl; [done |].
  specialize (Hfg k (list_elem_of_here _ _)) as Hk.
  assert (sum_over f ks ≤ sum_over g ks)%Z; [| lia].
  apply IH. intros k' Hk'. apply Hfg. set_solver.
Qed.

Lemma first_occurrences_length a :
  length (first_occurrences a) = size (list_to_set a : gset string).
Proof.
  assert ((list_to_set a : gset string)
          = list_to_set (first_occurrences a)) as ->.
  { apply set_eq. intros x.
    by rewrite !elem_of_list_to_set, first_occurrences_elem_of. }
  symmetry. apply size_list_to_set, first_occurrences_NoDup.
Qed.

Lemma normalize_Permutation config l : normalize config l ≡ₚ l.
Proof.
  unfold normalize. destruct (Ordered config); [done |].
  apply sort_Strings_Permutation.
Qed.

Lemma normalize_idemp config l :
  normalize config (normalize config l) = normalize config l.
Proof.
  unfold normalize. destruct (Ordered config); [done |].
  apply sort_Strings_idemp.
Qed.

Section ReportMore.

Context {Metrics : Type}.
Implicit Types (s : StateManager (Metrics := Metrics)).
Implicit Types (ks : list string) (k : string).

Lemma StateManager_eq s1 s2 :
  received s1 = received s2 → sent s1 = sent s2 → config s1 = config s2 →
  terminated s1 = terminated s2 → metrics s1 = metrics s2 → s1 = s2.
Proof. destruct s1, s2. simpl. by intros -> -> -> -> ->. Qed.

(** The manager after [GenerateReport], whatever the order of the visit. *)
Lemma GenerateReport_in_manager ks s :
  range_order (sent s) ks →
  (GenerateReport_in ks s).1
  = with_sent (λ m, normalize (config s) <$> m) s.
Proof.
  intros Hks.
  destruct (GenerateReport_in_frame ks s) as (Hr & Hc & Ht & Hm & _).
  apply StateManager_eq; try done.
  apply map_eq. intros k. rewrite (GenerateReport_in_sent s ks Hks). simpl.
  by rewrite lookup_fmap.
Qed.

(** X11.  Go visits the keys of a map in an order that changes from run to
    run; [GenerateReport] returns the same report, and leaves the same
    manager, in every order. *)
Theorem GenerateReport_any_order ks1 ks2 s :
  range_order (sent s) ks1 →
  range_order (sent s) ks2 →
  GenerateReport_in ks1 s = GenerateReport_in ks2 s.
Proof.
  intros H1 H2.
  pose proof (GenerateReport_in_manager ks1 s H1) as Hm1.
  pose proof (GenerateReport_in_manager ks2 s H2) as Hm2.
  pose proof (GenerateReport_in_order ks1 s H1) as Hr1.
  pose proof (GenerateReport_in_order ks2 s H2) as Hr2.
  destruct (GenerateReport_in ks1 s), (GenerateReport_in ks2 s).
  simpl in *. congruence.
Qed.

Lemma views_after_normalize s k :
  let s1 := with_sent (λ m, normalize (config s) <$> m) s in
  sent_view s1 k = sent_view s k
  ∧ clean_received s1 k = clean_received s k
  ∧ duplicates_view s1 k = duplicates_view s k
  ∧ lost_view s1 k = lost_view s k.
Proof.
  intros s1.
  assert (sent_view s1 k = sent_view s k) as Hsv.
  { unfold sent_view. simpl. rewrite !lookup_total_alt, lookup_fmap.
    destruct (sent s !! k); simpl; [apply normalize_idemp | done]. }
  split_and!; try done.
  unfold lost_view. by rewrite Hsv.
Qed.

(** X12.  Calling [GenerateReport] again returns the same report and
    leaves the manager as the first call left it: the sort of the first
    call in unordered mode does not show in the reports. *)
Theorem GenerateReport_twice ks1 ks2 s :
  range_order (sent s) ks1 →
  range_order (sent (GenerateReport_in ks1 s).1) ks2 →
  GenerateReport_in ks2 (GenerateReport_in ks1 s).1 = GenerateReport_in ks1 s.
Proof.
  intros H1 H2.
  pose proof (GenerateReport_in_manager ks1 s H1) as Hm1.
  pose proof (GenerateReport_in_manager ks2 _ H2) as Hm2.
  rewrite Hm1 in H2, Hm2 |- *.
  set (s1 := with_sent (λ m, normalize (config s) <$> m) s) in *.
  assert (ks2 ≡ₚ ks1) as Hperm.
  { apply NoDup_Permutation.
    - by apply (range_order_NoDup _ _ H2).
    - by apply (range_order_NoDup _ _ H1).
    - intros k. rewrite (range_order_elem_of _ _ k H2),
        (range_order_elem_of _ _ k H1). simpl. rewrite lookup_fmap.
      by rewrite fmap_is_Some. }
  destruct (GenerateReport_in_spec ks1 s H1)
    as (HL1 & HD1 & HR1 & HLc1 & HDc1 & HRc1).
  destruct (GenerateReport_in_spec ks2 s1 H2)
    as (HL2 & HD2 & HR2 & HLc2 & HDc2 & HRc2).
  destruct (GenerateReport_in_frame ks1 s) as (_ & _ & _ & _ & HM1 & HT1).
  destruct (GenerateReport_in_frame ks2 s1) as (_ & _ & _ & _ & HM2 & HT2).
  destruct (GenerateReport_in ks1 s) as [s1' r1].
  destruct (GenerateReport_in ks2 s1) as [s2' r2].
  simpl in *. subst s1' s2'. f_equal.
  - apply StateManager_eq; try done. simpl.
    apply map_eq. intros k. rewrite !lookup_fmap.
    destruct (sent s !! k); simpl; [| done]. by rewrite normalize_idemp.
  - destruct r1, r2. simpl in *. subst. f_equal.
    + rewrite (sum_over_perm _ _ _ Hperm). apply sum_over_ext.
      intros k _.
      destruct (views_after_normalize s k) as (Hsv & Hcr & Hdv & Hlv).
      fold s1 in Hsv, Hcr, Hdv, Hlv. congruence.
    + rewrite (sum_over_perm _ _ _ Hperm). apply sum_over_ext.
      intros k _.
      destruct (views_after_normalize s k) as (Hsv & Hcr & Hdv & Hlv).
      fold s1 in Hsv, Hcr, Hdv, Hlv. congruence.
    + rewrite (sum_over_perm _ _ _ Hperm). apply sum_over_ext.
      intros k _. simpl. rewrite !lookup_total_alt, lookup_fmap.
      destruct (sent s !! k); simpl; [| done].
      unfold len. by rewrite normalize_Permutation.
    + apply map_eq. intros k. rewrite HL1, HL2. simpl. rewrite lookup_fmap.
      destruct (sent s !! k); simpl; [| done].
      destruct (views_after_normalize s k) as (Hsv & Hcr & Hdv & Hlv).
      fold s1 in Hsv, Hcr, Hdv, Hlv. congruence.
    + apply map_eq. intros k. rewrite HD1, HD2. simpl. rewrite lookup_fmap.
      destruct (sent s !! k); simpl; [| done].
      destruct (views_after_normalize s k) as (Hsv & Hcr & Hdv & Hlv).
      fold s1 in Hsv, Hcr, Hdv, Hlv. congruence.
    + apply map_eq. intros k. rewrite HR1, HR2. simpl. rewrite lookup_fmap.
      destruct (sent s !! k); simpl; [| done].
      by rewrite normalize_idemp.
Qed.

End ReportMore.

Section ReportEntries.

Context {Metrics : Type}.
Implicit Types (s : StateManager (Metrics := Metrics)).
Implicit Types (ks : list string) (k : string).


(** X14.  The three maps of the report have exactly the keys of the sent
    ledger: every key sent has its entry of lost, duplicate and received
    events, and a key not sent has none. *)
Theorem report_keys s ks :
  range_order (sent s) ks →
  let r := (GenerateReport_in ks s).2 in
  dom (Report.LostEventsByPartitionKey r) = dom (sent s)
  ∧ dom (Report.DuplicateEventsByPartitionKey r) = dom (sent s)
  ∧ dom (Report.ReceivedEventsByPartitionKey r) = dom (sent s).
Proof.
  intros Hks r.
  destruct (GenerateReport_in_spec ks s Hks) as (HL & HD & HR & _).
  fold r in HL, HD, HR.
  split_and!; apply set_eq; intros k; rewrite !elem_of_dom.
  - by rewrite HL, fmap_is_Some.
  - by rewrite HD, fmap_is_Some.
  - by rewrite HR, fmap_is_Some.
Qed.

(** X15.  LostCount is 0 exactly when every ID sent under a key was
    received under the same key; it is never negative and never above the
    number of the IDs sent. *)
Theorem report_nothing_lost s ks :
  range_order (sent s) ks →
  let r := (GenerateReport_in ks s).2 in
  (Report.LostCount r = 0%Z
   ↔ ∀ k v x, sent s !! k = Some v → x ∈ v → x ∈ received s !!! k)
  ∧ (0 ≤ Report.LostCount r ≤ sum_over (λ k, len (sent s !!! k)) ks)%Z.
Proof.
  intros Hks r.
  destruct (GenerateReport_in_spec ks s Hks) as (_ & _ & _ & HLc & _).
  fold r in HLc. rewrite HLc.
  assert (∀ k, (0 ≤ len (lost_view s k))%Z) as Hnn by (intros; unfold len; lia).
  assert (∀ k, default [] ((λ v, (removeDuplicates v).1) <$> received s !! k)
               ≡ₚ first_occurrences (received s !!! k)) as Hclean.
  { intros k. rewrite lookup_total_alt.
    destruct (received s !! k); simpl; [| done].
    by rewrite removeDuplicates_eq. }
  split.
  - rewrite (sum_over_zero _ _ Hnn). split.
    + intros Hall k v x Hv Hx.
      assert (k ∈ ks) as Hk
        by (apply (range_order_elem_of _ _ _ Hks); by eexists).
      specialize (Hall k Hk). rewrite lost_view_len in Hall.
      change 0%Z with (Z.of_nat 0) in Hall. apply Nat2Z.inj in Hall.
      apply size_empty_inv in Hall.
      rewrite (lookup_total_correct _ _ _ Hv) in Hall.
      destruct (decide (x ∈ received s !!! k)) as [| Hnin]; [done |].
      exfalso. apply (not_elem_of_empty (C := gset string) x).
      apply Hall. rewrite elem_of_difference,
        !elem_of_list_to_set, Hclean, first_occurrences_elem_of. done.
    + intros Hall k Hk. rewrite lost_view_len.
      apply (range_order_elem_of _ _ _ Hks) in Hk as [v Hv].
      rewrite (lookup_total_correct _ _ _ Hv).
      assert ((list_to_set v
               ∖ list_to_set
                   (default [] ((λ v0, (removeDuplicates v0).1)
                                  <$> received s !! k)) : gset string) = ∅)
        as ->; [| by rewrite size_empty].
      apply set_eq. intros x. rewrite elem_of_difference,
        !elem_of_list_to_set, Hclean, first_occurrences_elem_of.
      split; [| set_solver]. intros [Hx Hnin]. destruct Hnin. by eapply Hall.
  - split; [by apply sum_over_nonneg |].
    apply sum_over_le. intros k _. rewrite lost_view_len. unfold len.
    apply inj_le.
    etransitivity; [apply subseteq_size, subseteq_difference_l; done |].
    rewrite <- first_occurrences_length.
    apply sublist_length, first_occurrences_sublist.
Qed.

End ReportEntries.

(** ** The diff: the manager after the call, duplicates, missing keys *)

Section DiffMore.

Context {Metrics : Type}.
Variable cmp_Diff : option (list string) → option (list string) → string.
Implicit Types (s : StateManager (Metrics := Metrics)).
Implicit Types (ks : list string) (k : string).

(** The manager after [Diff], whatever the order of the visit. *)
Lemma Diff_in_manager ks s :
  range_order (sent s) ks →
  (Diff_in cmp_Diff ks s).1 = with_sent (λ m, normalize (config s) <$> m) s.
Proof.
  intros Hks. unfold Diff_in.
  destruct (Diff_loop_frame cmp_Diff ks s
    (s, false, "Diff by partition key" +:+ newline) eq_refl)
    as (Hr & Hc & Ht & Hm).
  destruct (Diff_loop_inv cmp_Diff ks s
    ("Diff by partition key" +:+ newline) (range_order_NoDup _ _ Hks))
    as (Hs & _).
  { intros k Hk. by apply (range_order_elem_of _ _ _ Hks). }
  destruct (foldl _ _ ks) as [[s1 h] text]. simpl in *.
  apply StateManager_eq; try done. simpl.
  apply map_eq. intros k. rewrite Hs, lookup_fmap.
  destruct (decide (k ∈ ks)) as [Hin | Hin];
    rewrite (range_order_elem_of _ _ _ Hks) in Hin.
  - destruct Hin as [v Hv]. rewrite Hv. simpl.
    by rewrite (sent_view_lookup s k v Hv).
  - apply eq_None_not_Some in Hin. by rewrite Hin.
Qed.

(** X16.  [Diff] writes to the sent ledger as [GenerateReport] does: the
    manager after [Diff] is the manager after [GenerateReport], in
    whatever orders the two visit the ledger; it is the manager before the
    call when ordered mode is on, and the received ledger is never
    changed.  Whether [Diff] returns the empty string does not depend on
    the order of its visit. *)
Theorem Diff_manager ks1 ks2 s :
  range_order (sent s) ks1 →
  range_order (sent s) ks2 →
  (Diff_in cmp_Diff ks1 s).1 = (GenerateReport_in ks2 s).1
  ∧ received (Diff_in cmp_Diff ks1 s).1 = received s
  ∧ (Ordered (config s) = true → (Diff_in cmp_Diff ks1 s).1 = s)
  ∧ ((Diff_in cmp_Diff ks1 s).2 = "" ↔ (Diff_in cmp_Diff ks2 s).2 = "").
Proof.
  intros H1 H2.
  rewrite (Diff_in_manager ks1 s H1), (GenerateReport_in_manager ks2 s H2).
  split_and!; try done.
  - intros Hord. apply StateManager_eq; try done. simpl.
    apply map_eq. intros k. rewrite lookup_fmap. unfold normalize.
    rewrite Hord. by destruct (sent s !! k).
  - by rewrite (Diff_in_empty_iff cmp_Diff ks1 s H1),
      (Diff_in_empty_iff cmp_Diff ks2 s H2).
Qed.



End DiffMore.

Section DiffContract.

Context {Metrics : Type}.
Variable cmp_Diff : option (list string) → option (list string) → string.
Hypothesis cmp_Diff_empty : ∀ x y, cmp_Diff x y = "" ↔ x = y.
Implicit Types (s : StateManager (Metrics := Metrics)).
Implicit Types (ks : list string) (k : string).

(** What the empty string of [Diff] says at one key. *)
Lemma Diff_empty_at ks s k v :
  range_order (sent s) ks →
  (Diff_in cmp_Diff ks s).2 = "" →
  sent s !! k = Some v →
  ∃ r, received s !! k = Some r
       ∧ normalize (config s) (first_occurrences r) = normalize (config s) v.
Proof.
  intros Hks Hempty Hv.
  pose proof (proj1 (Diff_in_empty_iff cmp_Diff ks s Hks) Hempty k
                (mk_is_Some _ _ Hv)) as Hk.
  apply cmp_Diff_empty in Hk. revert Hk.
  unfold clean_received. rewrite (sent_view_lookup s k v Hv).
  destruct (received s !! k) as [r |]; [| done]. simpl.
  rewrite removeDuplicates_eq. simpl. intros [= Heq]. by exists r.
Qed.

(** X18.  When [Diff] returns the empty string, no sent sequence holds an
    ID twice (the received sequences are compared after deduplication, so
    an ID sent twice under a key always shows as a difference), every key
    sent has received, and the report counts no lost event. *)
Theorem Diff_empty_no_loss s ks :
  range_order (sent s) ks →
  (Diff_in cmp_Diff ks s).2 = "" →
  (∀ k v, sent s !! k = Some v → NoDup v ∧ is_Some (received s !! k))
  ∧ Report.LostCount (GenerateReport_in ks s).2 = 0%Z.
Proof.
  intros Hks Hempty. split.
  - intros k v Hv.
    destruct (Diff_empty_at ks s k v Hks Hempty Hv) as (r & Hr & Heq).
    split; [| by eexists].
    rewrite <- (normalize_Permutation (config s) v), <- Heq,
      normalize_Permutation.
    apply first_occurrences_NoDup.
  - destruct (GenerateReport_in_spec ks s Hks) as (_ & _ & _ & HLc & _).
    rewrite HLc. apply sum_over_zero; [intros; unfold len; lia |].
    intros k Hk. apply (range_order_elem_of _ _ _ Hks) in Hk as [v Hv].
    destruct (Diff_empty_at ks s k v Hks Hempty Hv) as (r & Hr & Heq).
    rewrite lost_view_len, (lookup_total_correct _ _ _ Hv), Hr. simpl.
    rewrite removeDuplicates_eq. simpl.
    assert ((list_to_set v ∖ list_to_set (first_occurrences r)
             : gset string) = ∅) as ->; [| by rewrite size_empty].
    apply set_eq. intros x.
    rewrite elem_of_difference, !elem_of_list_to_set.
    rewrite <- (normalize_Permutation (config s) v), <- Heq,
      normalize_Permutation.
    set_solver.
Qed.

(** X19.  A key that was sent and never received always shows: [Diff]
    returns a non-empty string, the lost events of the key are all the IDs
    sent under it, and its duplicate events are a nil slice. *)
Theorem sent_never_received s ks k v :
  range_order (sent s) ks →
  sent s !! k = Some v →
  received s !! k = None →
  (Diff_in cmp_Diff ks s).2 ≠ ""
  ∧ Report.DuplicateEventsByPartitionKey (GenerateReport_in ks s).2 !! k
    = Some None
  ∧ ∃ lost, Report.LostEventsByPartitionKey (GenerateReport_in ks s).2 !! k
            = Some lost
            ∧ ∀ x, x ∈ lost ↔ x ∈ v.
Proof.
  intros Hks Hv Hr. split_and!.
  - intros Hempty.
    destruct (Diff_empty_at ks s k v Hks Hempty Hv) as (r & Hr' & _).
    congruence.
  - destruct (GenerateReport_in_spec ks s Hks) as (_ & HD & _).
    rewrite HD, Hv. simpl. unfold duplicates_view. by rewrite Hr.
  - destruct (GenerateReport_in_spec ks s Hks) as (HL & _).
    exists (lost_view s k). split; [by rewrite HL, Hv |].
    intros x. rewrite <- (elem_of_list_to_set (C := gset string)).
    rewrite lost_view_set, (lookup_total_correct _ _ _ Hv), Hr. simpl.
    set_solver.
Qed.

End DiffContract.

Lemma Diff_empty_no_loss_witness :
  let s := ledger_state true {[ "p1" := ["e1"; "e2"] ]}
             {[ "p1" := ["e1"; "e1"; "e2"] ]} in
  (Diff_in sample_Diff ["p1"] s).2 = ""
  ∧ Report.LostCount (GenerateReport_in ["p1"] s).2 = 0%Z.
Proof.
  intros s.
  assert (range_order (sent s) ["p1"]) as Hks by (by vm_compute).
  assert ((Diff_in sample_Diff ["p1"] s).2 = "") as Hempty
    by (vm_compute; reflexivity).
  split; [done |].
  apply (Diff_empty_no_loss sample_Diff sample_Diff_empty s ["p1"] Hks
           Hempty).
Defined.

Lemma sent_never_received_witness :
  let s := ledger_state true {[ "p1" := ["e2"; "e1"] ]} ∅ in
  (Diff_in sample_Diff ["p1"] s).2 ≠ ""
  ∧ Report.DuplicateEventsByPartitionKey (GenerateReport_in ["p1"] s).2
    !! "p1" = Some None.
Proof.
  intros s.
  assert (range_order (sent s) ["p1"]) as Hks by (by vm_compute).
  destruct (sent_never_received sample_Diff sample_Diff_empty s ["p1"] "p1"
              ["e2"; "e1"] Hks eq_refl eq_refl) as (Hd & Hdup & _).
  by split.
Defined.

(** ** Nothing sent, and termination *)

Lemma string_append_assoc (a b c : string) : (a +:+ b) +:+ c = a +:+ b +:+ c.
Proof.
  induction a as [| x a IH]; [reflexivity |].
  change (String x ((a +:+ b) +:+ c) = String x (a +:+ b +:+ c)).
  by rewrite IH.
Qed.

Lemma string_append_nil_r (a : string) : a +:+ "" = a.
Proof.
  induction a as [| x a IH]; [reflexivity |].
  change (String x (a +:+ "") = String x a). by rewrite IH.
Qed.

Section Edges.

Context {Metrics : Type}.
Variable cmp_Diff : option (list string) → option (list string) → string.
Implicit Types (s : StateManager (Metrics := Metrics)).
Implicit Types (ks : list string) (k : string).

(** X20.  When nothing was sent, whatever was received: [Diff] returns the
    empty string, the report has no entry and all its counts are 0, and
    neither call changes the manager.  So it is for a new manager, which
    also counts no received event. *)
Theorem nothing_sent s :
  (sent s = ∅ →
   Diff cmp_Diff s = (s, "")
   ∧ GenerateReport s
     = (s, Report.mk 0 0 0 (metrics s) ∅ ∅ ∅ (terminated s)))
  ∧ ∀ (zero : Metrics) config,
      let s0 := NewStateManager zero config in
      ReceivedCount s0 = 0%Z
      ∧ Diff cmp_Diff s0 = (s0, "")
      ∧ GenerateReport s0 = (s0, Report.mk 0 0 0 zero ∅ ∅ ∅ false).
Proof.
  split.
  - intros Hsent. unfold Diff, GenerateReport, keys.
    rewrite Hsent, map_to_list_empty. done.
  - intros zero config s0.
    unfold ReceivedCount, Diff, GenerateReport, keys. simpl.
    rewrite map_to_list_empty. done.
Qed.

Lemma Diff_loop_Terminated m ks s h text :
  foldl (Diff_body cmp_Diff) (Terminated m s, h, text) ks
  = (Terminated m (foldl (Diff_body cmp_Diff) (s, h, text) ks).1.1,
     (foldl (Diff_body cmp_Diff) (s, h, text) ks).1.2,
     (foldl (Diff_body cmp_Diff) (s, h, text) ks).2).
Proof.
  induction ks as [| k ks IH] using rev_ind; [done |].
  rewrite !foldl_app, IH. simpl.
  destruct (foldl (Diff_body cmp_Diff) (s, h, text) ks) as [[s1 h1] t1].
  simpl. by destruct (Ordered (config s1)).
Qed.

Lemma GenerateReport_in_Terminated m ks s :
  GenerateReport_in ks (Terminated m s)
  = (Terminated m (GenerateReport_in ks s).1,
     let r := (GenerateReport_in ks s).2 in
     Report.mk (Report.LostCount r) (Report.DuplicateCount r)
       (Report.ReceivedCount r) m (Report.LostEventsByPartitionKey r)
       (Report.DuplicateEventsByPartitionKey r)
       (Report.ReceivedEventsByPartitionKey r) true).
Proof.
  induction ks as [| k ks IH] using rev_ind; [done |].
  rewrite !GenerateReport_in_snoc, IH.
  destruct (GenerateReport_in ks s) as [s1 r1]. simpl.
  by destruct (Ordered (config s1)).
Qed.

(** X21.  [Terminated] sets the flag and the metrics and nothing else: the
    ledgers and the configuration are as before, so [ReceivedCount] and
    [Diff] return what they returned, and the report differs in its
    Terminated and Metrics fields only.  A second call overwrites the
    metrics of the first. *)
Theorem Terminated_sets_flag_and_metrics m s ks :
  received (Terminated m s) = received s
  ∧ sent (Terminated m s) = sent s
  ∧ config (Terminated m s) = config s
  ∧ ReceivedCount (Terminated m s) = ReceivedCount s
  ∧ (Diff_in cmp_Diff ks (Terminated m s)).2 = (Diff_in cmp_Diff ks s).2
  ∧ (let r := (GenerateReport_in ks s).2 in
     (GenerateReport_in ks (Terminated m s)).2
     = Report.mk (Report.LostCount r) (Report.DuplicateCount r)
         (Report.ReceivedCount r) m (Report.LostEventsByPartitionKey r)
         (Report.DuplicateEventsByPartitionKey r)
         (Report.ReceivedEventsByPartitionKey r) true)
  ∧ ∀ m', Terminated m' (Terminated m s) = Terminated m' s.
Proof.
  split_and!; try done.
  - unfold Diff_in. rewrite Diff_loop_Terminated.
    by destruct (foldl _ (s, _, _) ks) as [[s1 h1] t1].
  - by rewrite GenerateReport_in_Terminated.
Qed.

(** X22.  The string of [Diff] is either empty or starts with the line
    "Diff by partition key", in whatever order the keys are visited. *)
Theorem Diff_text_header s ks :
  (Diff_in cmp_Diff ks s).2 = ""
  ∨ ∃ rest, (Diff_in cmp_Diff ks s).2
            = "Diff by partition key" +:+ newline +:+ rest.
Proof.
  unfold Diff_in.
  assert (∃ rest,
            (foldl (Diff_body cmp_Diff)
               (s, false, "Diff by partition key" +:+ newline) ks).2
            = ("Diff by partition key" +:+ newline) +:+ rest) as [rest Hr].
  { induction ks as [| k ks [rest IH]] using rev_ind.
    - exists "". simpl. by rewrite string_append_nil_r.
    - rewrite foldl_app. simpl.
      destruct (foldl _ _ ks) as [[s1 h1] t1]. simpl in *.
      eexists. rewrite IH. apply string_append_assoc. }
  destruct (foldl _ _ ks) as [[s1 h1] t1]. simpl in *.
  destruct h1; [right | by left].
  exists rest. rewrite Hr. apply string_append_assoc.
Qed.

End Edges.

(** ** What every manager in use satisfies *)

Section Reachable.

Context {Metrics : Type}.
Variable cmp_Diff : option (list string) → option (list string) → string.
Implicit Types (s : StateManager (Metrics := Metrics)).
Implicit Types (c : call (Metrics := Metrics)).

(** No entry of a ledger is empty, and in unordered mode the only key is
    "unknown". *)
Local Abbreviation ledger_ok config m :=
  ((∀ k v, m !! k = Some v → v ≠ [])
   ∧ (Ordered config = false → ∀ k, is_Some (m !! k) → k = "unknown")).

Lemma ledger_ok_normalize config (m : gmap string (list string)) :
  ledger_ok config m → ledger_ok config (normalize config <$> m).
Proof.
  intros [Hne Hkeys]. split.
  - intros k v. rewrite lookup_fmap.
    destruct (m !! k) as [w |] eqn:Hw; simpl; [| done].
    intros [= <-] Hnil. apply (Hne k w Hw).
    apply Permutation_nil_r. by rewrite <- Hnil, normalize_Permutation.
  - intros Hord k. rewrite lookup_fmap, fmap_is_Some. by apply Hkeys.
Qed.

Lemma run_call_ledger_ok s c s' :
  run_call cmp_Diff s c = Some s' →
  ledger_ok (config s) (sent s) →
  ledger_ok (config s) (received s) →
  config s' = config s
  ∧ ledger_ok (config s) (sent s')
  ∧ ledger_ok (config s) (received s').
Proof.
  intros Hrun Hsent Hrecv. destruct c as [e | e | | | | m]; simpl in Hrun.
  - unfold recordSent in Hrun.
    destruct (insert e (sent s) (config s)) as [store |] eqn:Hins; [| done].
    injection Hrun as <-. simpl. split_and!; try done.
    + by eapply insert_keeps_nonempty; [done | apply Hsent].
    + intros Hord. by eapply insert_unordered_key; [| done | apply Hsent].
    + apply Hrecv.
    + apply Hrecv.
  - unfold recordReceived in Hrun.
    destruct (insert e (received s) (config s)) as [store |] eqn:Hins;
      [| done].
    injection Hrun as <-. simpl. split_and!; try done.
    + apply Hsent.
    + apply Hsent.
    + by eapply insert_keeps_nonempty; [done | apply Hrecv].
    + intros Hord. by eapply insert_unordered_key; [| done | apply Hrecv].
  - injection Hrun as <-. simpl. split; [done | by split].
  - injection Hrun as <-. unfold Diff.
    rewrite (Diff_in_manager cmp_Diff _ s (range_order_keys _)). simpl.
    split; [done |]. split; [by apply ledger_ok_normalize | done].
  - injection Hrun as <-. unfold GenerateReport.
    rewrite (GenerateReport_in_manager _ s (range_order_keys _)). simpl.
    split; [done |]. split; [by apply ledger_ok_normalize | done].
  - injection Hrun as <-. simpl. split; [done | by split].
Qed.

(** X23.  Whatever calls a manager has served since [NewStateManager], its
    configuration is the one it was made with, no sequence of its ledgers
    is empty (a key appears with its first ID), and in unordered mode its
    ledgers have no key but "unknown". *)
Theorem manager_in_use zero cfg cs s' :
  run_calls cmp_Diff (NewStateManager zero cfg) cs = Some s' →
  config s' = cfg
  ∧ (∀ k v, sent s' !! k = Some v → v ≠ [])
  ∧ (∀ k v, received s' !! k = Some v → v ≠ [])
  ∧ (Ordered cfg = false →
     ∀ k, is_Some (sent s' !! k) ∨ is_Some (received s' !! k) →
          k = "unknown").
Proof.
  assert (∀ cs s,
            run_calls cmp_Diff s cs = Some s' →
            ledger_ok (config s) (sent s) →
            ledger_ok (config s) (received s) →
            config s' = config s
            ∧ ledger_ok (config s) (sent s')
            ∧ ledger_ok (config s) (received s')) as Hinv.
  { clear cs. induction cs as [| c cs IH]; intros s.
    { by intros [= <-]. }
    rewrite run_calls_cons.
    destruct (run_call cmp_Diff s c) as [s1 |] eqn:Hc; [| done]. simpl.
    intros Hrun Hsent Hrecv.
    destruct (run_call_ledger_ok s c s1 Hc Hsent Hrecv) as (Hcfg & Hs1 & Hr1).
    rewrite <- Hcfg in Hs1, Hr1 |- *. by apply IH. }
  intros Hrun.
  destruct (Hinv cs _ Hrun) as (Hcfg & [Hs1 Hs2] & [Hr1 Hr2]); simpl in *.
  - split; [by intros k v; rewrite lookup_empty |].
    intros _ k. rewrite lookup_empty. by intros [? ?].
  - split; [by intros k v; rewrite lookup_empty |].
    intros _ k. rewrite lookup_empty. by intros [? ?].
  - split_and!; try done.
    intros Hord k [Hk | Hk]; [by apply Hs2 | by apply Hr2].
Qed.

End Reachable.

(** ** Instances *)

Lemma GenerateReport_any_order_witness :
  let s := ledger_state true {[ "p1" := ["e2"; "e1"]; "p2" := ["e3"] ]}
             {[ "p1" := ["e1"; "e1"] ]} in
  GenerateReport_in ["p1"; "p2"] s = GenerateReport_in ["p2"; "p1"] s.
Proof.
  intros s.
  apply GenerateReport_any_order;
    vm_compute; first [reflexivity | apply Permutation_swap].
Defined.

Lemma GenerateReport_twice_witness :
  let s := ledger_state false {[ "unknown" := ["e2"; "e1"] ]}
             {[ "unknown" := ["e1"] ]} in
  GenerateReport_in ["unknown"] (GenerateReport_in ["unknown"] s).1
  = GenerateReport_in ["unknown"] s.
Proof.
  intros s. apply GenerateReport_twice; vm_compute; reflexivity.
Defined.


Lemma report_keys_witness :
  let s := ledger_state true {[ "p1" := ["e2"; "e1"]; "p2" := ["e3"] ]}
             {[ "p1" := ["e1"; "e1"]; "p3" := ["e9"] ]} in
  dom (Report.ReceivedEventsByPartitionKey (GenerateReport_in ["p2"; "p1"] s).2)
  = dom (sent s).
Proof.
  intros s.
  assert (range_order (sent s) ["p2"; "p1"]) as Hks
    by (vm_compute; first [reflexivity | apply Permutation_swap]).
  apply (report_keys s ["p2"; "p1"] Hks).
Defined.

Lemma report_nothing_lost_witness :
  let s := ledger_state true {[ "p1" := ["e2"; "e1"] ]}
             {[ "p1" := ["e1"; "e2"; "e1"] ]} in
  Report.LostCount (GenerateReport_in ["p1"] s).2 = 0%Z.
Proof.
  intros s.
  assert (range_order (sent s) ["p1"]) as Hks by (vm_compute; reflexivity).
  apply (report_nothing_lost s ["p1"] Hks).
  intros k v x Hv Hx. unfold s in Hv. simpl in Hv.
  apply lookup_singleton_Some in Hv as [<- <-].
  assert (received s !!! "p1" = ["e1"; "e2"; "e1"]) as ->
    by (vm_compute; reflexivity).
  set_solver.
Defined.

Lemma Diff_manager_witness :
  let s := ledger_state false {[ "unknown" := ["e2"; "e1"] ]}
             {[ "unknown" := ["e1"] ]} in
  (Diff_in sample_Diff ["unknown"] s).1 = (GenerateReport_in ["unknown"] s).1
  ∧ received (Diff_in sample_Diff ["unknown"] s).1 = received s.
Proof.
  intros s.
  assert (range_order (sent s) ["unknown"]) as Hks
    by (vm_compute; reflexivity).
  destruct (Diff_manager sample_Diff ["unknown"] ["unknown"] s Hks Hks)
    as (Hm & Hr & _).
  by split.
Defined.


Lemma nothing_sent_witness :
  let s := ledger_state true ∅ {[ "p2" := ["e9"] ]} in
  Diff sample_Diff s = (s, "")
  ∧ GenerateReport s = (s, Report.mk 0 0 0 tt ∅ ∅ ∅ false).
Proof. intros s. by apply (proj1 (nothing_sent sample_Diff s)). Defined.

Lemma manager_in_use_witness :
  ∃ s', run_calls sample_Diff
          (NewStateManager 0%Z {| Ordered := false |})
          [CallRecordSent (sample_event "e2" (Some "p1"));
           CallRecordReceived (sample_event "e2" None);
           CallDiff; CallTerminated 7%Z; CallGenerateReport] = Some s'
        ∧ config s' = {| Ordered := false |}.
Proof.
  destruct (run_calls sample_Diff _ _) as [s' |] eqn:Hrun;
    [| by vm_compute in Hrun].
  exists s'. split; [done |].
  apply (manager_in_use sample_Diff _ _ _ _ Hrun).
Defined.
